(** * Falcor shading utilities: the microfacet BSDF helpers of
      [Framework/Source/ShadingUtils/BSDFs.h]

    The header is a library of pure numeric routines (Fresnel terms, normal
    distribution functions, Smith shadowing/masking, lobe sampling) shared by
    the host and the shaders.  This development embeds the routines
    function by function and states their properties.

    ** Numeric model

    A source [float] is read as a real number: every operation is the exact
    one of [R], so rounding, overflow, infinities and NaN are outside the
    model, and a decimal literal of the source stands for the decimal itself.
    A comparison of the source is a boolean test ([Rleb], [Rltb]) so that
    [if] and [||] read as they do in the header.

    The Standard Library makes [x / 0], [sqrt] of a negative number and [ln]
    of a non-positive number total.  The statements on value ranges and on
    the samplers carry hypotheses that keep every divisor, radicand and
    logarithm argument of the source inside its domain; the statements on
    control flow need no such hypothesis.

    Two statements depend on what a [float] does and a real number does not:
    whether the anisotropic Beckmann exponent is clamped (0/0 is not a
    number), and whether the two forms of the GGX distribution return the
    same value (a sum drops the digits below its last place).  For these the
    routines concerned are embedded a second time over IEEE 754 binary32,
    one rounded operation for each operation of the source, and the
    statements over the reals say that they hold in exact arithmetic. *)

From Stdlib Require Import Reals Lra Bool NArith ZArith SpecFloat.

Local Open Scope R_scope.

(** ** Comparisons of the source as boolean tests *)

Definition Rleb (a b : R) : bool := if Rle_dec a b then true else false.
Definition Rltb (a b : R) : bool := if Rlt_dec a b then true else false.
Definition Rgeb (a b : R) : bool := Rleb b a.
Definition Rgtb (a b : R) : bool := Rltb b a.

Infix "<=?" := Rleb (at level 70, no associativity) : R_scope.
Infix "<?" := Rltb (at level 70, no associativity) : R_scope.
Infix ">=?" := Rgeb (at level 70, no associativity) : R_scope.
Infix ">?" := Rgtb (at level 70, no associativity) : R_scope.

(** ** Vectors

    [vec2] and [vec3] are plain value records; the operators used by the
    header are component-wise, as in the shading language. *)

Module V2.
Record t : Type := mk { x : R; y : R }.
Definition mul (a b : t) : t := mk (x a * x b) (y a * y b).
Definition div (a b : t) : t := mk (x a / x b) (y a / y b).
Definition scale_r (a : t) (s : R) : t := mk (x a * s) (y a * s).
Definition dot (a b : t) : R := x a * x b + y a * y b.
Definition length (a : t) : R := sqrt (dot a a).
End V2.

Module V3.
Record t : Type := mk { x : R; y : R; z : R }.
Definition neg (a : t) : t := mk (- x a) (- y a) (- z a).
Definition sub (a b : t) : t := mk (x a - x b) (y a - y b) (z a - z b).
Definition scale_l (s : R) (a : t) : t := mk (s * x a) (s * y a) (s * z a).
Definition dot (a b : t) : R := x a * x b + y a * y b + z a * z b.
Definition set_x (v : R) (a : t) : t := mk v (y a) (z a).
Definition set_y (v : R) (a : t) : t := mk (x a) v (z a).
Definition set_z (v : R) (a : t) : t := mk (x a) (y a) v.
End V3.

Notation "'vec2'" := V2.t.
Notation "'vec3'" := V3.t.
Notation "'v2'" := V2.mk.
Notation "'v3'" := V3.mk.

(** ** Intrinsics and constants of the shading language *)

Definition M_PIf : R := PI.
Definition M_1_PIf : R := / PI.

Definition max (a b : R) : R := Rmax a b.
Definition min (a b : R) : R := Rmin a b.
Definition abs (a : R) : R := Rabs a.
Definition saturate (a : R) : R := min (max a 0) 1.
Definition log (a : R) : R := ln a.

(** The unsigned integer type of the shading language (no arithmetic is done
    on it here, so it is not truncated). *)
Definition uint : Type := N.

(** ** Fresnel terms *)

(** Schlick's approximation for reflection of a dielectric media. *)
Definition dielectricFresnelSchlick (VdH IoR : R) : R :=
  let R0 := (1 - IoR) / (1 + IoR) in
  let R0 := R0 * R0 in
  let OneMinusCos := 1 - VdH in
  let OneMinusCos2 := OneMinusCos * OneMinusCos in
  R0 + (1 - R0) * OneMinusCos * OneMinusCos2 * OneMinusCos2.

(** Full Fresnel factor (w/o polarization) of a planar interface between two
    dielectrics.  The parameter [NdE] is reassigned in the source
    ([NdE = abs(NdE)]); the second binding of [NdE] below is that
    assignment. *)
Definition dielectricFresnel (NdE IoR : R) : R :=
  let realIoR := if NdE >=? 0 then 1 / IoR else IoR in
  let NdL2 := 1 - realIoR * realIoR * (1 - NdE * NdE) in
  if NdL2 <=? 0 then 1
  else
    let NdL := sqrt NdL2 in
    let NdE := abs NdE in
    let Rp := (IoR * NdL - NdE) / (IoR * NdL + NdE) in
    let Rs := (NdE - IoR * NdL) / (NdE + IoR * NdL) in
    (Rp * Rp + Rs * Rs) * 0.5.

(** ** Normal distribution functions

    The header overloads each evaluator on its argument list: the isotropic
    form takes the normal, the half vector and a scalar roughness, the
    anisotropic form takes the half vector in the local shading frame and a
    roughness per tangent axis.  The two overloads keep their name, one in
    [Isotropic] and one in [Anisotropic]. *)

Module Isotropic.

(** The argument of the exponential of the Beckmann lobe (the local
    [exponent] of the source). *)
Definition evalBeckmannDistribution_exponent (N H : vec3) (roughness : R) : R :=
  let a2 := roughness * roughness in
  let NoH := V3.dot N H in
  let NoH2 := NoH * NoH in
  max 0 ((1 - NoH2) / (a2 * NoH2)).

Definition evalBeckmannDistribution (N H : vec3) (roughness : R) : R :=
  let a2 := roughness * roughness in
  let NoH := V3.dot N H in
  let NoH2 := NoH * NoH in
  let exponent := evalBeckmannDistribution_exponent N H roughness in
  exp (- exponent) / (M_PIf * a2 * NoH2 * NoH2).

Definition evalGGXDistribution (N H : vec3) (roughness : R) : R :=
  let a2 := roughness * roughness in
  let NoH := saturate (V3.dot N H) in
  let D_denom := (NoH * a2 - NoH) * NoH + 1 in
  let D_denom := M_PIf * D_denom * D_denom in
  a2 / D_denom.

End Isotropic.

Module Anisotropic.

(** The argument of the exponential of the Beckmann lobe (the local
    [exponent] of the source). *)
Definition evalBeckmannDistribution_exponent (H : vec3) (rgns : vec2) : R :=
  let NoH2 := V3.z H * V3.z H in
  let Hproj := v2 (V3.x H) (V3.y H) in
  V2.dot (V2.div Hproj (V2.mul rgns rgns)) Hproj / NoH2.

Definition evalBeckmannDistribution (H : vec3) (rgns : vec2) : R :=
  let NoH2 := V3.z H * V3.z H in
  let exponent := evalBeckmannDistribution_exponent H rgns in
  exp (- exponent) / (M_PIf * V2.x rgns * V2.y rgns * NoH2 * NoH2).

Definition evalGGXDistribution (H : vec3) (rgns : vec2) : R :=
  let anisoU := if V2.y rgns <? V2.x rgns then V2.y rgns / V2.x rgns else 1 in
  let anisoV := if V2.x rgns <? V2.y rgns then V2.x rgns / V2.y rgns else 1 in
  let r := min (V2.x rgns) (V2.y rgns) in
  let NoH2 := V3.z H * V3.z H in
  let Hproj := v2 (V3.x H) (V3.y H) in
  let exponent := V2.dot (V2.div Hproj (v2 (anisoU * anisoU) (anisoV * anisoV))) Hproj in
  let root := NoH2 * r * r + exponent in
  r * r / (M_PIf * anisoU * anisoV * root * root).

End Anisotropic.

(** ** Shadowing and masking *)

(** The divisor of [effectiveVisibleRoughness]: the squared sine of the polar
    angle of [dir]. *)
Definition effectiveVisibleRoughness_divisor (dir : vec3) : R :=
  1 - V3.z dir * V3.z dir.

(** Effective microfacet roughness observed from the direction [dir]. *)
Definition effectiveVisibleRoughness (dir : vec3) (rghns : vec2) : R :=
  let recipSinThSq := 1 / effectiveVisibleRoughness_divisor dir in
  let dirPlane := v2 (V3.x dir) (V3.y dir) in
  let cosSinPhiSq := V2.scale_r (V2.mul dirPlane dirPlane) recipSinThSq in
  let res := V2.mul (V2.mul rghns rghns) cosSinPhiSq in
  sqrt (V2.x res + V2.y res).

Section Shadowing.

(** The identifier of the Beckmann distribution, a macro of the host/device
    data header that [ndfType] is compared with. *)
Variable NDFBeckmann : uint.

(** Smith'67 shadowing or masking term from one direction. *)
Definition GSmith (dir h : vec3) (rghns : vec2) (ndfType : uint) : R :=
  if V3.dot dir h * V3.z dir <=? 0 then 0
  else
    let sinThSq := 1 - V3.z dir * V3.z dir in
    if sinThSq <=? 0 then 1
    else
      let recipSlope := sqrt sinThSq / V3.z dir in
      let alpha := effectiveVisibleRoughness dir rghns in
      if N.eqb ndfType NDFBeckmann then
        let a := 1 / (alpha * recipSlope) in
        if a >? 1.6 then 1
        else
          let aSq := a * a in
          (3.535 * a + 2.181 * aSq) / (1 + 2.276 * a + 2.577 * aSq)
      else
        let isectRoot := alpha * recipSlope in
        2 / (1 + V2.length (v2 1 isectRoot)).

(** Shadowing and masking term for microfacet BRDFs. *)
Definition evalMicrofacetTerms (T B N h V L : vec3) (roughness : vec2)
    (ndfType : uint) (transmissive : bool) : R :=
  let lTg := v3 (V3.dot T L) (V3.dot B L) (V3.dot N L) in
  let vTg := v3 (V3.dot T V) (V3.dot B V) (V3.dot N V) in
  if negb transmissive && (V3.z lTg * V3.z vTg <=? 0) then 0
  else GSmith vTg h roughness ndfType * GSmith lTg h roughness ndfType.

End Shadowing.

(** ** Sampling

    The samplers return the weight and write three reference parameters.
    [SampleRefs] is the store of those parameters: a sampler takes the store
    as the caller hands it over and returns the weight with the store it
    leaves behind. *)

Record SampleRefs : Type := mkRefs { m : vec3; wi : vec3; pdf : R }.

Definition set_m (v : vec3) (s : SampleRefs) : SampleRefs := mkRefs v (wi s) (pdf s).
Definition set_wi (v : vec3) (s : SampleRefs) : SampleRefs := mkRefs (m s) v (pdf s).
Definition set_pdf (v : R) (s : SampleRefs) : SampleRefs := mkRefs (m s) (wi s) v.

(** Sample the microfacet BRDF using the Beckmann normal distribution. *)
Definition sampleBeckmannDistribution (wo : vec3) (roughness rSample : vec2)
    (s : SampleRefs) : R * SampleRefs :=
  let alphaSqr := V2.x roughness * V2.x roughness in
  let temp := 2 * M_PIf * V2.y rSample in
  let sinPhiM := sin temp in
  let cosPhiM := cos temp in
  let tanThetaMSqr := alphaSqr * - log (1 - V2.x rSample) in
  let cosThetaM := 1 / sqrt (1 + tanThetaMSqr) in
  let s := set_pdf ((1 - V2.x rSample)
                    / (M_PIf * V2.x roughness * V2.y roughness
                       * cosThetaM * cosThetaM * cosThetaM)) s in
  let s := if pdf s <? 1e-20 then set_pdf 0 s else s in
  let sinThetaM := sqrt (max 0 (1 - cosThetaM * cosThetaM)) in
  let s := set_m (V3.set_x (sinThetaM * cosPhiM) (m s)) s in
  let s := set_m (V3.set_y (sinThetaM * sinPhiM) (m s)) s in
  let s := set_m (V3.set_z cosThetaM (m s)) s in
  let s := set_wi (V3.sub (V3.neg wo)
                     (V3.scale_l (2 * V3.dot (V3.neg wo) (m s)) (m s))) s in
  if (V3.z (wi s) <=? 0) || (pdf s <=? 0) then (0, s)
  else
    let weight := Anisotropic.evalBeckmannDistribution (m s) roughness
                  * V3.dot wo (m s) / (pdf s * V3.z wo) in
    let s := set_pdf (pdf s / (4 * V3.dot (wi s) (m s))) s in
    (weight, s).

(** Sample the microfacet BRDF using the GGX normal distribution. *)
Definition sampleGGXDistribution (wo : vec3) (roughness rSample : vec2)
    (s : SampleRefs) : R * SampleRefs :=
  let alphaSqr := V2.x roughness * V2.x roughness in
  let temp := 2 * M_PIf * V2.y rSample in
  let sinPhiM := sin temp in
  let cosPhiM := cos temp in
  let tanThetaMSqr := alphaSqr * V2.x rSample / (1 - V2.x rSample) in
  let cosThetaM := 1 / sqrt (1 + tanThetaMSqr) in
  let temp := 1 + tanThetaMSqr / alphaSqr in
  let s := set_pdf (M_1_PIf
                    / (V2.x roughness * V2.y roughness
                       * cosThetaM * cosThetaM * cosThetaM * temp * temp)) s in
  let s := if pdf s <? 1e-20 then set_pdf 0 s else s in
  let sinThetaM := sqrt (max 0 (1 - cosThetaM * cosThetaM)) in
  let s := set_m (V3.set_x (sinThetaM * cosPhiM) (m s)) s in
  let s := set_m (V3.set_y (sinThetaM * sinPhiM) (m s)) s in
  let s := set_m (V3.set_z cosThetaM (m s)) s in
  let s := set_wi (V3.sub (V3.neg wo)
                     (V3.scale_l (2 * V3.dot (V3.neg wo) (m s)) (m s))) s in
  if (V3.z (wi s) <=? 0) || (pdf s <=? 0) then (0, s)
  else
    let weight := Anisotropic.evalGGXDistribution (m s) roughness
                  * V3.dot wo (m s) / (pdf s * V3.z wo) in
    let s := set_pdf (pdf s / (4 * V3.dot (wi s) (m s))) s in
    (weight, s).

(** ** Quantities of the samplers that the statements refer to

    The definitions below name intermediate values of the two samplers: the
    cosine of the sampled polar angle, the sampled microfacet normal, the
    mirror direction, the density over half vectors as line 300 (Beckmann)
    and line 357 (GGX) of the header compute it, and the clamp of the
    "sanity check".  The samplers above do not use them; the lemmas
    [sampleBeckmannDistribution_eq] and [sampleGGXDistribution_eq] relate
    the two. *)

Definition beckmannCosThetaM (roughness rSample : vec2) : R :=
  1 / sqrt (1 + V2.x roughness * V2.x roughness * - log (1 - V2.x rSample)).

Definition ggxCosThetaM (roughness rSample : vec2) : R :=
  1 / sqrt (1 + V2.x roughness * V2.x roughness * V2.x rSample
                / (1 - V2.x rSample)).

Definition microfacetNormal (cosThetaM : R) (rSample : vec2) : vec3 :=
  let sinThetaM := sqrt (max 0 (1 - cosThetaM * cosThetaM)) in
  v3 (sinThetaM * cos (2 * M_PIf * V2.y rSample))
     (sinThetaM * sin (2 * M_PIf * V2.y rSample))
     cosThetaM.

Definition mirror (wo n : vec3) : vec3 :=
  V3.sub (V3.neg wo) (V3.scale_l (2 * V3.dot (V3.neg wo) n) n).

Definition beckmannPdfH (roughness rSample : vec2) : R :=
  let cosThetaM := beckmannCosThetaM roughness rSample in
  (1 - V2.x rSample)
  / (M_PIf * V2.x roughness * V2.y roughness * cosThetaM * cosThetaM * cosThetaM).

Definition ggxPdfH (roughness rSample : vec2) : R :=
  let cosThetaM := ggxCosThetaM roughness rSample in
  let temp := 1 + V2.x roughness * V2.x roughness * V2.x rSample
                  / (1 - V2.x rSample)
                  / (V2.x roughness * V2.x roughness) in
  M_1_PIf
  / (V2.x roughness * V2.y roughness * cosThetaM * cosThetaM * cosThetaM
     * temp * temp).

Definition clampPdf (p : R) : R := if p <? 1e-20 then 0 else p.

(** A store to start from when the caller has not initialised the reference
    parameters to anything in particular. *)
Definition blankRefs : SampleRefs := mkRefs (v3 0 0 0) (v3 0 0 0) 0.

(** ** Further routines of the header

    The remaining Fresnel terms, the Lambertian term and the two Beckmann
    helpers, with the intrinsics they call. *)

Definition clamp (a lo hi : R) : R := min (max a lo) hi.

(** The linear blend of the shading language, [x * (1 - a) + y * a] on every
    component. *)
Definition mix (a b : vec3) (t : R) : vec3 :=
  v3 (V3.x a * (1 - t) + V3.x b * t)
     (V3.y a * (1 - t) + V3.y b * t)
     (V3.z a * (1 - t) + V3.z b * t).

(** Simplified Fresnel factor (w/o polarization) of a planar interface
    between two dielectrics. *)
Definition dielectricFresnelFast (NdE NdL IoR : R) : R :=
  let Rs := (NdE - IoR * NdL) / (NdE + IoR * NdL) in
  let Rp := (IoR * NdE - NdL) / (IoR * NdE + NdL) in
  (Rs * Rs + Rp * Rp) * 0.5.

(** Full Fresnel factor (w/o polarization) of a planar interface between a
    dielectric (usually air) and a conductive media.  The source reassigns
    its parameter [NdE]; the second binding is that assignment. *)
Definition conductorFresnel (NdE IoR Kappa : R) : R :=
  let Kappa2 := Kappa * Kappa in
  let TotalIoR2 := IoR * IoR + Kappa2 in
  let NdE := saturate NdE in
  let NdE2 := NdE * NdE in
  let ReducedNdE2 := TotalIoR2 * NdE2 in
  let Rp2 := (ReducedNdE2 - IoR * NdE * 2 + 1) / (ReducedNdE2 + IoR * NdE * 2 + 1) in
  let Rs2 := (TotalIoR2 - IoR * NdE * 2 + NdE2) / (TotalIoR2 + IoR * NdE * 2 + NdE2) in
  (Rp2 + Rs2) * 0.5.

(** Lambertian diffuse BSDF. Returns a clamped N.L factor. *)
Definition evalDiffuseBSDF (shadeNormal lightDir : vec3) : R :=
  max 0 (V3.dot shadeNormal lightDir) * M_1_PIf.

(** Standard deviation of the Beckmann distribution as a cone apex angle. *)
Definition beckmannStdDevAngle (roughness : R) : R :=
  atan (sqrt 0.5 * roughness).

(** The blend factor of [getBeckmannDominantDir] (the local [lerpFactor] of
    the source). *)
Definition getBeckmannDominantDir_lerpFactor (roughness : R) : R :=
  let smoothness := clamp (1 - roughness) 0 1 in
  smoothness * (sqrt smoothness + roughness).

(** An approximation of the off specular peak; the result is not
    normalized.  The mirror vector, [R] in the source, is [Rm] here, [R]
    being the type of the reals. *)
Definition getBeckmannDominantDir (N Rm : vec3) (roughness : R) : vec3 :=
  let lerpFactor := getBeckmannDominantDir_lerpFactor roughness in
  mix N Rm lerpFactor.

(** The Trowbridge-Reitz (GGX) distribution of normals with roughness [ax]
    and [ay] along the two tangent axes, in its usual closed form.  It is not
    a routine of the header: it names the distribution that the anisotropic
    evaluator is compared with. *)
Definition trowbridgeReitz (H : vec3) (ax ay : R) : R :=
  let Q := V3.x H * V3.x H / (ax * ax) + V3.y H * V3.y H / (ay * ay)
           + V3.z H * V3.z H in
  1 / (PI * ax * ay * Q * Q).

(** ** The distribution functions in single precision

    A second embedding of three routines, over IEEE 754 binary32 (24 bits of
    precision, exponents below 2^128, round to nearest even), built on the
    Standard Library's [SpecFloat].  Every arithmetic operator of the source
    is one rounded operation, taken in the source's order; no two are fused.
    A decimal literal [n/d] is the rounded quotient of two integers that
    binary32 holds exactly. *)

Declare Scope f32_scope.
Delimit Scope f32_scope with f32.

Module F32.

Definition float : Type := spec_float.
Definition prec : Z := 24.
Definition emax : Z := 128.

Definition add (a b : float) : float := SFadd prec emax a b.
Definition sub (a b : float) : float := SFsub prec emax a b.
Definition mul (a b : float) : float := SFmul prec emax a b.
Definition div (a b : float) : float := SFdiv prec emax a b.
Definition ltb (a b : float) : bool := SFltb a b.
Definition leb (a b : float) : bool := SFleb a b.
Definition eqb (a b : float) : bool := SFeqb a b.

Definition of_Z (n : Z) : float := binary_normalize prec emax n 0 false.
Definition decimal (n d : Z) : float := div (of_Z n) (of_Z d).

(** The binary32 number next to pi, 0x40490FDB. *)
Definition M_PIf : float := S754_finite false 13176795 (-22).

(** [max] and [min] on numbers.  With an operand that is not a number the
    comparison is false and the first operand is returned, as [std::max]
    and [std::min] do on the host. *)
Definition max (a b : float) : float := if ltb a b then b else a.
Definition min (a b : float) : float := if ltb b a then b else a.
Definition saturate (a : float) : float := min (max a (of_Z 0)) (of_Z 1).

(** The vectors of the header, with binary32 components. *)
Record float2 : Type := f2 { x2 : float; y2 : float }.
Record float3 : Type := f3 { x : float; y : float; z : float }.

Definition mul2 (a b : float2) : float2 := f2 (mul (x2 a) (x2 b)) (mul (y2 a) (y2 b)).
Definition div2 (a b : float2) : float2 := f2 (div (x2 a) (x2 b)) (div (y2 a) (y2 b)).
Definition dot2 (a b : float2) : float := add (mul (x2 a) (x2 b)) (mul (y2 a) (y2 b)).
Definition dot3 (a b : float3) : float :=
  add (add (mul (x a) (x b)) (mul (y a) (y b))) (mul (z a) (z b)).

End F32.

Infix "+" := F32.add : f32_scope.
Infix "-" := F32.sub : f32_scope.
Infix "*" := F32.mul : f32_scope.
Infix "/" := F32.div : f32_scope.
Infix "<?" := F32.ltb : f32_scope.

Module IsotropicF32.

Definition evalGGXDistribution (N H : F32.float3) (roughness : F32.float) : F32.float :=
  (let a2 := roughness * roughness in
   let NoH := F32.saturate (F32.dot3 N H) in
   let D_denom := (NoH * a2 - NoH) * NoH + F32.of_Z 1 in
   let D_denom := F32.M_PIf * D_denom * D_denom in
   a2 / D_denom)%f32.

End IsotropicF32.

Module AnisotropicF32.

(** The argument of the exponential of the Beckmann lobe (the local
    [exponent] of the source). *)
Definition evalBeckmannDistribution_exponent (H : F32.float3) (rgns : F32.float2) : F32.float :=
  (let NoH2 := F32.z H * F32.z H in
   let Hproj := F32.f2 (F32.x H) (F32.y H) in
   F32.dot2 (F32.div2 Hproj (F32.mul2 rgns rgns)) Hproj / NoH2)%f32.

Definition evalGGXDistribution (H : F32.float3) (rgns : F32.float2) : F32.float :=
  (let anisoU := if F32.y2 rgns <? F32.x2 rgns then F32.y2 rgns / F32.x2 rgns else F32.of_Z 1 in
   let anisoV := if F32.x2 rgns <? F32.y2 rgns then F32.x2 rgns / F32.y2 rgns else F32.of_Z 1 in
   let r := F32.min (F32.x2 rgns) (F32.y2 rgns) in
   let NoH2 := F32.z H * F32.z H in
   let Hproj := F32.f2 (F32.x H) (F32.y H) in
   let exponent :=
     F32.dot2 (F32.div2 Hproj (F32.f2 (anisoU * anisoU) (anisoV * anisoV))) Hproj in
   let root := NoH2 * r * r + exponent in
   r * r / (F32.M_PIf * anisoU * anisoV * root * root))%f32.

End AnisotropicF32.

(** * Properties *)

(** ** The boolean tests decide the order of [R] *)

Lemma Rleb_true (a b : R) : a <= b -> (a <=? b) = true.
Proof. intros H. unfold Rleb. destruct (Rle_dec a b); [reflexivity | contradiction]. Qed.

Lemma Rleb_false (a b : R) : b < a -> (a <=? b) = false.
Proof. intros H. unfold Rleb. destruct (Rle_dec a b); [lra | reflexivity]. Qed.

Lemma Rltb_true (a b : R) : a < b -> (a <? b) = true.
Proof. intros H. unfold Rltb. destruct (Rlt_dec a b); [reflexivity | contradiction]. Qed.

Lemma Rltb_false (a b : R) : b <= a -> (a <? b) = false.
Proof. intros H. unfold Rltb. destruct (Rlt_dec a b); [lra | reflexivity]. Qed.

Lemma Rleb_spec (a b : R) : reflect (a <= b) (a <=? b).
Proof.
  destruct (Rle_lt_dec a b) as [H | H].
  - rewrite (Rleb_true _ _ H). now constructor.
  - rewrite (Rleb_false _ _ H). constructor. lra.
Qed.

Lemma Rltb_spec (a b : R) : reflect (a < b) (a <? b).
Proof.
  destruct (Rlt_le_dec a b) as [H | H].
  - rewrite (Rltb_true _ _ H). now constructor.
  - rewrite (Rltb_false _ _ H). constructor. lra.
Qed.

Lemma Rgeb_true (a b : R) : b <= a -> (a >=? b) = true.
Proof. apply Rleb_true. Qed.

Lemma Rgeb_false (a b : R) : a < b -> (a >=? b) = false.
Proof. apply Rleb_false. Qed.

Lemma Rgtb_true (a b : R) : b < a -> (a >? b) = true.
Proof. apply Rltb_true. Qed.

Lemma Rgtb_false (a b : R) : a <= b -> (a >? b) = false.
Proof. apply Rltb_false. Qed.

(** Computes the vector operations and the stores of reference parameters
    down to their components. *)
Ltac vec_compute :=
  cbv beta iota zeta delta
    [V2.x V2.y V2.mul V2.div V2.scale_r V2.dot V2.length
     V3.x V3.y V3.z V3.neg V3.sub V3.scale_l V3.dot V3.set_x V3.set_y V3.set_z
     m wi pdf set_m set_wi set_pdf fst snd].

(** ** Smith term: the two short circuits *)

Section GSmithShortCircuits.

Variable NDFBeckmann : uint.

(** The first guard of [GSmith]: a microfacet that faces away from [dir]. *)
Lemma GSmith_backfacing (dir h : vec3) (rghns : vec2) (ndfType : uint) :
  V3.dot dir h * V3.z dir <= 0 -> GSmith NDFBeckmann dir h rghns ndfType = 0.
Proof. intros H. unfold GSmith. now rewrite (Rleb_true _ _ H). Qed.

(** The second guard is reached only past the first one. *)
Lemma GSmith_no_sine (dir h : vec3) (rghns : vec2) (ndfType : uint) :
  0 < V3.dot dir h * V3.z dir -> 1 - V3.z dir * V3.z dir <= 0 ->
  GSmith NDFBeckmann dir h rghns ndfType = 1.
Proof.
  intros Hfront Hsin. unfold GSmith.
  rewrite (Rleb_false _ _ Hfront). cbv zeta. now rewrite (Rleb_true _ _ Hsin).
Qed.

End GSmithShortCircuits.

(** C3, as stated, fails: along the normal ([dir = (0,0,1)], where
    [1 - dir.z^2 = 0]) with a half vector on the other side
    ([h = (0,0,-1)]) both conditions hold, and [GSmith] takes the
    first guard and returns 0, not 1. *)
Lemma GSmith_no_sine_backfacing_returns_0 :
  let dir := v3 0 0 1 in
  let h := v3 0 0 (-1) in
  1 - V3.z dir * V3.z dir <= 0
  /\ GSmith 0%N dir h (v2 0.5 0.5) 0%N = 0
  /\ GSmith 0%N dir h (v2 0.5 0.5) 0%N <> 1.
Proof.
  cbv zeta. assert (E : GSmith 0%N (v3 0 0 1) (v3 0 0 (-1)) (v2 0.5 0.5) 0%N = 0).
  { apply GSmith_backfacing. vec_compute. lra. }
  rewrite E. vec_compute. repeat split; lra.
Qed.

(** C3 (amended): [GSmith] returns exactly 0 whenever
    [dot(dir,h) * dir.z <= 0]; it returns exactly 1 whenever
    [1 - dir.z^2 <= 0] and the first guard did not fire, that is
    [dot(dir,h) * dir.z > 0].  This holds for every roughness pair and every
    NDF type, whatever the value of the [NDFBeckmann] identifier. *)
Theorem GSmith_short_circuits (NDFBeckmann : uint) (dir h : vec3) (rghns : vec2)
    (ndfType : uint) :
  (V3.dot dir h * V3.z dir <= 0 ->
   GSmith NDFBeckmann dir h rghns ndfType = 0)
  /\ (0 < V3.dot dir h * V3.z dir -> 1 - V3.z dir * V3.z dir <= 0 ->
      GSmith NDFBeckmann dir h rghns ndfType = 1).
Proof. split; [apply GSmith_backfacing | apply GSmith_no_sine]. Qed.

Lemma GSmith_short_circuits_witness :
  GSmith 0%N (v3 0 0 1) (v3 0 0 (-1)) (v2 0.5 0.5) 0%N = 0
  /\ GSmith 0%N (v3 0 0 1) (v3 0 0 1) (v2 0.5 0.5) 0%N = 1.
Proof.
  split.
  - apply (proj1 (GSmith_short_circuits 0%N (v3 0 0 1) (v3 0 0 (-1)) (v2 0.5 0.5) 0%N)).
    vec_compute. lra.
  - apply (proj2 (GSmith_short_circuits 0%N (v3 0 0 1) (v3 0 0 1) (v2 0.5 0.5) 0%N));
      vec_compute; lra.
Defined.

(** ** Total internal reflection *)

(** C4: whenever the refraction radicand [1 - realIoR^2 * (1 - NdotView^2)]
    is at most 0, [dielectricFresnel] returns exactly 1, where [realIoR] is
    [1/IoR] if [NdotView >= 0] and [IoR] otherwise.  No condition on [IoR]. *)
Theorem dielectricFresnel_total_internal_reflection (NdE IoR realIoR : R) :
  (0 <= NdE -> realIoR = 1 / IoR) ->
  (NdE < 0 -> realIoR = IoR) ->
  1 - realIoR * realIoR * (1 - NdE * NdE) <= 0 ->
  dielectricFresnel NdE IoR = 1.
Proof.
  intros Hin Hout Hrad. unfold dielectricFresnel.
  destruct (Rle_lt_dec 0 NdE) as [Hpos | Hneg].
  - rewrite (Rgeb_true _ _ Hpos). rewrite <- (Hin Hpos).
    now rewrite (Rleb_true _ _ Hrad).
  - rewrite (Rgeb_false _ _ Hneg). rewrite <- (Hout Hneg).
    now rewrite (Rleb_true _ _ Hrad).
Qed.

Lemma dielectricFresnel_total_internal_reflection_witness :
  dielectricFresnel 0 0.5 = 1 /\ dielectricFresnel (-0.5) 2 = 1.
Proof.
  split.
  - apply (dielectricFresnel_total_internal_reflection 0 0.5 2); lra.
  - apply (dielectricFresnel_total_internal_reflection (-0.5) 2 2); lra.
Defined.

(** ** The divisor of the effective visible roughness *)

(** C6, as stated, fails in both halves: for the unit direction along the
    normal ([dir.z = 1]) the divisor is 0, and for a unit direction in the
    tangent plane ([dir.z = 0]) the divisor is 1. *)
Lemma effectiveVisibleRoughness_divisor_at_normal_and_horizon :
  let up := v3 0 0 1 in
  let side := v3 1 0 0 in
  (V3.dot up up = 1 /\ V3.z up = 1 /\ effectiveVisibleRoughness_divisor up = 0)
  /\ (V3.dot side side = 1 /\ V3.z side = 0
      /\ effectiveVisibleRoughness_divisor side <> 0).
Proof.
  unfold effectiveVisibleRoughness_divisor. vec_compute. repeat split; lra.
Qed.

(** C6 (amended): [effectiveVisibleRoughness] divides by [1 - dir.z^2]; the
    divisor is zero exactly when [dir.z = 1] or [dir.z = -1] (the direction
    is along the normal), and it equals 1, hence is non-zero, when
    [dir.z = 0]. *)
Theorem effectiveVisibleRoughness_divisor_zero_iff (dir : vec3) :
  (effectiveVisibleRoughness_divisor dir = 0
   <-> V3.z dir = 1 \/ V3.z dir = -1)
  /\ (V3.z dir = 0 -> effectiveVisibleRoughness_divisor dir = 1).
Proof.
  unfold effectiveVisibleRoughness_divisor. split; [split |].
  - intros H.
    assert (F : (V3.z dir - 1) * (V3.z dir + 1) = 0) by lra.
    destruct (Rmult_integral _ _ F); [left | right]; lra.
  - intros [H | H]; rewrite H; lra.
  - intros H. rewrite H. lra.
Qed.

Lemma effectiveVisibleRoughness_divisor_zero_iff_witness :
  effectiveVisibleRoughness_divisor (v3 0 0 (-1)) = 0
  /\ effectiveVisibleRoughness_divisor (v3 0.6 0.8 0) = 1.
Proof.
  split.
  - apply (proj1 (effectiveVisibleRoughness_divisor_zero_iff (v3 0 0 (-1)))).
    right. reflexivity.
  - apply (proj2 (effectiveVisibleRoughness_divisor_zero_iff (v3 0.6 0.8 0))).
    reflexivity.
Defined.

(** The call of [effectiveVisibleRoughness] inside [GSmith] sits behind the
    guard [sinThSq <= 0], which is the test of this very divisor: past both
    guards the divisor is positive. *)
Lemma GSmith_guards_divisor (dir : vec3) :
  (1 - V3.z dir * V3.z dir <=? 0) = false ->
  0 < effectiveVisibleRoughness_divisor dir.
Proof.
  unfold effectiveVisibleRoughness_divisor. intros H.
  destruct (Rleb_spec (1 - V3.z dir * V3.z dir) 0); [discriminate | lra].
Qed.

(** ** The samplers in closed form

    Both samplers write [m], [wi] and [pdf] before the test that decides
    between the failure return and the weighted return; the store they leave
    is therefore a function of the inputs alone. *)

Lemma sampleBeckmannDistribution_eq (wo : vec3) (roughness rSample : vec2)
    (s : SampleRefs) :
  sampleBeckmannDistribution wo roughness rSample s =
  let mN := microfacetNormal (beckmannCosThetaM roughness rSample) rSample in
  let wI := mirror wo mN in
  let p := clampPdf (beckmannPdfH roughness rSample) in
  if (V3.z wI <=? 0) || (p <=? 0) then (0, mkRefs mN wI p)
  else (Anisotropic.evalBeckmannDistribution mN roughness * V3.dot wo mN
        / (p * V3.z wo),
        mkRefs mN wI (p / (4 * V3.dot wI mN))).
Proof.
  unfold sampleBeckmannDistribution, clampPdf, beckmannPdfH, beckmannCosThetaM,
    microfacetNormal, mirror.
  cbv zeta. unfold set_pdf at 1 2, pdf at 1.
  destruct (_ <? 1e-20); reflexivity.
Qed.

Lemma sampleGGXDistribution_eq (wo : vec3) (roughness rSample : vec2)
    (s : SampleRefs) :
  sampleGGXDistribution wo roughness rSample s =
  let mN := microfacetNormal (ggxCosThetaM roughness rSample) rSample in
  let wI := mirror wo mN in
  let p := clampPdf (ggxPdfH roughness rSample) in
  if (V3.z wI <=? 0) || (p <=? 0) then (0, mkRefs mN wI p)
  else (Anisotropic.evalGGXDistribution mN roughness * V3.dot wo mN
        / (p * V3.z wo),
        mkRefs mN wI (p / (4 * V3.dot wI mN))).
Proof.
  unfold sampleGGXDistribution, clampPdf, ggxPdfH, ggxCosThetaM,
    microfacetNormal, mirror.
  cbv zeta. unfold set_pdf at 1 2, pdf at 1.
  destruct (_ <? 1e-20); reflexivity.
Qed.

(** The microfacet normal and the incident direction are the same on both
    return paths. *)
Lemma sampleBeckmannDistribution_m (wo : vec3) (roughness rSample : vec2)
    (s : SampleRefs) :
  m (snd (sampleBeckmannDistribution wo roughness rSample s))
  = microfacetNormal (beckmannCosThetaM roughness rSample) rSample.
Proof. rewrite sampleBeckmannDistribution_eq. cbv zeta. now destruct (_ || _). Qed.

Lemma sampleBeckmannDistribution_wi (wo : vec3) (roughness rSample : vec2)
    (s : SampleRefs) :
  wi (snd (sampleBeckmannDistribution wo roughness rSample s))
  = mirror wo (microfacetNormal (beckmannCosThetaM roughness rSample) rSample).
Proof. rewrite sampleBeckmannDistribution_eq. cbv zeta. now destruct (_ || _). Qed.

Lemma sampleGGXDistribution_m (wo : vec3) (roughness rSample : vec2)
    (s : SampleRefs) :
  m (snd (sampleGGXDistribution wo roughness rSample s))
  = microfacetNormal (ggxCosThetaM roughness rSample) rSample.
Proof. rewrite sampleGGXDistribution_eq. cbv zeta. now destruct (_ || _). Qed.

Lemma sampleGGXDistribution_wi (wo : vec3) (roughness rSample : vec2)
    (s : SampleRefs) :
  wi (snd (sampleGGXDistribution wo roughness rSample s))
  = mirror wo (microfacetNormal (ggxCosThetaM roughness rSample) rSample).
Proof. rewrite sampleGGXDistribution_eq. cbv zeta. now destruct (_ || _). Qed.

(** ** The clamp of the sanity check *)

Lemma clampPdf_below (p : R) : p < 1e-20 -> clampPdf p = 0.
Proof. intros H. unfold clampPdf. now rewrite (Rltb_true _ _ H). Qed.

Lemma clampPdf_above (p : R) : 1e-20 <= p -> clampPdf p = p.
Proof. intros H. unfold clampPdf. now rewrite (Rltb_false _ _ H). Qed.

Lemma clampPdf_nonneg (p : R) : 0 <= clampPdf p.
Proof.
  destruct (Rlt_le_dec p 1e-20) as [H | H].
  - rewrite (clampPdf_below _ H). lra.
  - rewrite (clampPdf_above _ H). lra.
Qed.

(** The failure test of the samplers, as a proposition. *)
Lemma failure_test_true (z p : R) :
  z <= 0 \/ p <= 0 -> (z <=? 0) || (p <=? 0) = true.
Proof.
  intros [H | H].
  - now rewrite (Rleb_true _ _ H).
  - rewrite (Rleb_true p 0 H). apply orb_true_r.
Qed.

Lemma failure_test_false (z p : R) :
  0 < z -> 0 < p -> (z <=? 0) || (p <=? 0) = false.
Proof. intros Hz Hp. now rewrite (Rleb_false _ _ Hz), (Rleb_false _ _ Hp). Qed.

(** ** The first random coordinate at 0: the sample along the normal *)

Lemma beckmannCosThetaM_at_0 (roughness : vec2) (uy : R) :
  beckmannCosThetaM roughness (v2 0 uy) = 1.
Proof.
  unfold beckmannCosThetaM, log. vec_compute.
  replace (1 - 0) with 1 by lra. rewrite ln_1.
  replace (1 + _) with 1 by lra. rewrite sqrt_1. lra.
Qed.

Lemma ggxCosThetaM_at_0 (roughness : vec2) (uy : R) :
  ggxCosThetaM roughness (v2 0 uy) = 1.
Proof.
  unfold ggxCosThetaM. vec_compute.
  replace (1 + _) with 1 by lra. rewrite sqrt_1. lra.
Qed.

Lemma microfacetNormal_cos_1 (rSample : vec2) :
  microfacetNormal 1 rSample = v3 0 0 1.
Proof.
  unfold microfacetNormal, max. cbv zeta.
  replace (1 - 1 * 1) with 0 by lra.
  rewrite Rmax_left by lra. rewrite sqrt_0. f_equal; lra.
Qed.

Lemma beckmannPdfH_at_0 (roughness : vec2) (uy : R) :
  beckmannPdfH roughness (v2 0 uy) = 1 / (PI * V2.x roughness * V2.y roughness).
Proof.
  unfold beckmannPdfH. rewrite beckmannCosThetaM_at_0.
  unfold M_PIf. vec_compute. f_equal; lra.
Qed.

Lemma ggxPdfH_at_0 (roughness : vec2) (uy : R) :
  ggxPdfH roughness (v2 0 uy) = 1 / (PI * V2.x roughness * V2.y roughness).
Proof.
  unfold ggxPdfH. rewrite ggxCosThetaM_at_0.
  destruct roughness as [rx ry]. unfold M_1_PIf. vec_compute.
  replace (rx * rx * 0) with 0 by lra.
  unfold Rdiv. rewrite !Rmult_0_l, Rplus_0_r, !Rmult_1_r, Rmult_1_l.
  rewrite (Rmult_assoc PI rx ry). symmetry. apply Rinv_mult.
Qed.

(** ** Failure policy of the samplers *)

(** C7: both samplers leave [pdf] at exactly 0 whenever the density they
    compute over half vectors is below [1e-20]; they return the weight 0
    whenever the reflected direction has [wi.z <= 0] or the (clamped)
    density is non-positive, and they return it at once: the store then
    holds the normal, the direction and the density of the one sample that
    was drawn. *)
Theorem sample_failure_policy (wo : vec3) (roughness rSample : vec2)
    (s : SampleRefs) :
  let rb := sampleBeckmannDistribution wo roughness rSample s in
  let rg := sampleGGXDistribution wo roughness rSample s in
  let mb := microfacetNormal (beckmannCosThetaM roughness rSample) rSample in
  let mg := microfacetNormal (ggxCosThetaM roughness rSample) rSample in
  (beckmannPdfH roughness rSample < 1e-20 -> pdf (snd rb) = 0)
  /\ (V3.z (wi (snd rb)) <= 0 \/ clampPdf (beckmannPdfH roughness rSample) <= 0 ->
      rb = (0, mkRefs mb (mirror wo mb) (clampPdf (beckmannPdfH roughness rSample))))
  /\ (ggxPdfH roughness rSample < 1e-20 -> pdf (snd rg) = 0)
  /\ (V3.z (wi (snd rg)) <= 0 \/ clampPdf (ggxPdfH roughness rSample) <= 0 ->
      rg = (0, mkRefs mg (mirror wo mg) (clampPdf (ggxPdfH roughness rSample)))).
Proof.
  cbv zeta. repeat split.
  - intros H. rewrite sampleBeckmannDistribution_eq. cbv zeta.
    rewrite (clampPdf_below _ H).
    rewrite failure_test_true by (right; lra). reflexivity.
  - rewrite sampleBeckmannDistribution_wi. intros H.
    rewrite sampleBeckmannDistribution_eq. cbv zeta.
    now rewrite (failure_test_true _ _ H).
  - intros H. rewrite sampleGGXDistribution_eq. cbv zeta.
    rewrite (clampPdf_below _ H).
    rewrite failure_test_true by (right; lra). reflexivity.
  - rewrite sampleGGXDistribution_wi. intros H.
    rewrite sampleGGXDistribution_eq. cbv zeta.
    now rewrite (failure_test_true _ _ H).
Qed.

Lemma tiny_density : 1 / (PI * 1 * 1e21) < 1e-20.
Proof.
  assert (Hd : 1e20 < PI * 1 * 1e21) by (pose proof PI2_1; lra).
  apply Rlt_le_trans with (1 / 1e20); [| lra].
  unfold Rdiv. rewrite !Rmult_1_l.
  apply Rinv_lt_contravar; [| lra].
  apply Rmult_lt_0_compat; lra.
Qed.

Lemma mirror_down_about_normal : mirror (v3 0 0 (-1)) (v3 0 0 1) = v3 0 0 (-1).
Proof. unfold mirror. vec_compute. f_equal; lra. Qed.

Lemma sample_failure_policy_witness :
  pdf (snd (sampleBeckmannDistribution (v3 0 0 1) (v2 1 1e21) (v2 0 0) blankRefs)) = 0
  /\ fst (sampleBeckmannDistribution (v3 0 0 (-1)) (v2 1 1) (v2 0 0) blankRefs) = 0
  /\ pdf (snd (sampleGGXDistribution (v3 0 0 1) (v2 1 1e21) (v2 0 0) blankRefs)) = 0
  /\ fst (sampleGGXDistribution (v3 0 0 (-1)) (v2 1 1) (v2 0 0) blankRefs) = 0.
Proof.
  pose proof (sample_failure_policy (v3 0 0 1) (v2 1 1e21) (v2 0 0) blankRefs)
    as [Bp [_ [Gp _]]].
  pose proof (sample_failure_policy (v3 0 0 (-1)) (v2 1 1) (v2 0 0) blankRefs)
    as [_ [Bw [_ Gw]]].
  repeat split.
  - apply Bp. rewrite beckmannPdfH_at_0. exact tiny_density.
  - rewrite Bw; [reflexivity |]. left.
    rewrite sampleBeckmannDistribution_wi, beckmannCosThetaM_at_0,
      microfacetNormal_cos_1, mirror_down_about_normal.
    vec_compute. lra.
  - apply Gp. rewrite ggxPdfH_at_0. exact tiny_density.
  - rewrite Gw; [reflexivity |]. left.
    rewrite sampleGGXDistribution_wi, ggxCosThetaM_at_0,
      microfacetNormal_cos_1, mirror_down_about_normal.
    vec_compute. lra.
Defined.

(** ** Density and weight on the two return paths *)

Lemma mirror_up_about_normal : mirror (v3 0 0 1) (v3 0 0 1) = v3 0 0 1.
Proof. unfold mirror. vec_compute. f_equal; lra. Qed.

Lemma unit_roughness_density : 1 / 4 <= 1 / (PI * 1 * 1) /\ 1e-20 <= 1 / (PI * 1 * 1).
Proof.
  assert (H : 1 / 4 <= 1 / (PI * 1 * 1)).
  { unfold Rdiv. rewrite !Rmult_1_l, !Rmult_1_r.
    apply Rinv_le_contravar; [apply PI_RGT_0 | apply PI_4]. }
  split; [exact H | lra].
Qed.

(** C1, as stated, fails on the failure path: for [wo = (0,0,-1)], roughness
    [(1,1)] and the random sample [(0,0)] both samplers return the weight 0
    with [wi = (0,0,-1)], [m = (0,0,1)], and leave [pdf] at the density over
    half vectors, [1/pi]; that density divided by [4 * dot(wi, m) = -4] is a
    different number. *)
Lemma sample_pdf_below_surface_keeps_half_vector_density :
  let wo := v3 0 0 (-1) in
  let roughness := v2 1 1 in
  let rSample := v2 0 0 in
  let rb := sampleBeckmannDistribution wo roughness rSample blankRefs in
  let rg := sampleGGXDistribution wo roughness rSample blankRefs in
  (fst rb = 0
   /\ pdf (snd rb) = beckmannPdfH roughness rSample
   /\ pdf (snd rb)
      <> beckmannPdfH roughness rSample / (4 * V3.dot (wi (snd rb)) (m (snd rb))))
  /\ (fst rg = 0
      /\ pdf (snd rg) = ggxPdfH roughness rSample
      /\ pdf (snd rg)
         <> ggxPdfH roughness rSample / (4 * V3.dot (wi (snd rg)) (m (snd rg)))).
Proof.
  cbv zeta. destruct unit_roughness_density as [Hq Hc].
  rewrite sampleBeckmannDistribution_eq, sampleGGXDistribution_eq. cbv zeta.
  rewrite beckmannCosThetaM_at_0, ggxCosThetaM_at_0, microfacetNormal_cos_1,
    mirror_down_about_normal, beckmannPdfH_at_0, ggxPdfH_at_0.
  change (V2.x (v2 1 1)) with 1. change (V2.y (v2 1 1)) with 1.
  rewrite (clampPdf_above _ Hc).
  rewrite failure_test_true by (left; vec_compute; lra).
  vec_compute. repeat split; try lra.
  all: set (q := 1 / (PI * 1 * 1)) in *; intros E; lra.
Qed.

(** The weighted return of each sampler. *)
Lemma sampleBeckmannDistribution_weighted (wo : vec3) (roughness rSample : vec2)
    (s : SampleRefs) :
  let mN := microfacetNormal (beckmannCosThetaM roughness rSample) rSample in
  let wI := mirror wo mN in
  let p := beckmannPdfH roughness rSample in
  0 < V3.z wI -> 1e-20 <= p ->
  sampleBeckmannDistribution wo roughness rSample s
  = (Anisotropic.evalBeckmannDistribution mN roughness * V3.dot wo mN
     / (p * V3.z wo),
     mkRefs mN wI (p / (4 * V3.dot wI mN))).
Proof.
  cbv zeta. intros Hz Hp. rewrite sampleBeckmannDistribution_eq. cbv zeta.
  rewrite (clampPdf_above _ Hp).
  now rewrite failure_test_false by lra.
Qed.

Lemma sampleGGXDistribution_weighted (wo : vec3) (roughness rSample : vec2)
    (s : SampleRefs) :
  let mN := microfacetNormal (ggxCosThetaM roughness rSample) rSample in
  let wI := mirror wo mN in
  let p := ggxPdfH roughness rSample in
  0 < V3.z wI -> 1e-20 <= p ->
  sampleGGXDistribution wo roughness rSample s
  = (Anisotropic.evalGGXDistribution mN roughness * V3.dot wo mN
     / (p * V3.z wo),
     mkRefs mN wI (p / (4 * V3.dot wI mN))).
Proof.
  cbv zeta. intros Hz Hp. rewrite sampleGGXDistribution_eq. cbv zeta.
  rewrite (clampPdf_above _ Hp).
  now rewrite failure_test_false by lra.
Qed.

(** C1 (amended): on every input on which a sampler returns through the
    weighted path, that is when the reflected direction has [wi.z > 0] and
    the density over half vectors is at least the threshold [1e-20], the
    output [pdf] equals that density divided by [4 * dot(wi, m)], and the
    returned weight is [D(m) * dot(wo, m) / (density * wo.z)] with the
    density before the division. *)
Theorem sample_weighted_path (wo : vec3) (roughness rSample : vec2)
    (s : SampleRefs) :
  let rb := sampleBeckmannDistribution wo roughness rSample s in
  let rg := sampleGGXDistribution wo roughness rSample s in
  (0 < V3.z (wi (snd rb)) -> 1e-20 <= beckmannPdfH roughness rSample ->
   pdf (snd rb)
   = beckmannPdfH roughness rSample / (4 * V3.dot (wi (snd rb)) (m (snd rb)))
   /\ fst rb
      = Anisotropic.evalBeckmannDistribution (m (snd rb)) roughness
        * V3.dot wo (m (snd rb)) / (beckmannPdfH roughness rSample * V3.z wo))
  /\ (0 < V3.z (wi (snd rg)) -> 1e-20 <= ggxPdfH roughness rSample ->
      pdf (snd rg)
      = ggxPdfH roughness rSample / (4 * V3.dot (wi (snd rg)) (m (snd rg)))
      /\ fst rg
         = Anisotropic.evalGGXDistribution (m (snd rg)) roughness
           * V3.dot wo (m (snd rg)) / (ggxPdfH roughness rSample * V3.z wo)).
Proof.
  cbv zeta. split.
  - rewrite sampleBeckmannDistribution_wi, sampleBeckmannDistribution_m.
    intros Hz Hp.
    rewrite (sampleBeckmannDistribution_weighted wo roughness rSample s Hz Hp).
    split; reflexivity.
  - rewrite sampleGGXDistribution_wi, sampleGGXDistribution_m.
    intros Hz Hp.
    rewrite (sampleGGXDistribution_weighted wo roughness rSample s Hz Hp).
    split; reflexivity.
Qed.

Lemma sample_weighted_path_witness :
  let wo := v3 0 0 1 in
  let roughness := v2 1 1 in
  let rSample := v2 0 0 in
  let rb := sampleBeckmannDistribution wo roughness rSample blankRefs in
  let rg := sampleGGXDistribution wo roughness rSample blankRefs in
  (pdf (snd rb)
   = beckmannPdfH roughness rSample / (4 * V3.dot (wi (snd rb)) (m (snd rb)))
   /\ fst rb
      = Anisotropic.evalBeckmannDistribution (m (snd rb)) roughness
        * V3.dot wo (m (snd rb)) / (beckmannPdfH roughness rSample * V3.z wo))
  /\ (pdf (snd rg)
      = ggxPdfH roughness rSample / (4 * V3.dot (wi (snd rg)) (m (snd rg)))
      /\ fst rg
         = Anisotropic.evalGGXDistribution (m (snd rg)) roughness
           * V3.dot wo (m (snd rg)) / (ggxPdfH roughness rSample * V3.z wo)).
Proof.
  cbv zeta.
  destruct (sample_weighted_path (v3 0 0 1) (v2 1 1) (v2 0 0) blankRefs)
    as [B G].
  destruct unit_roughness_density as [_ Hc].
  split.
  - apply B.
    + rewrite sampleBeckmannDistribution_wi, beckmannCosThetaM_at_0,
        microfacetNormal_cos_1, mirror_up_about_normal.
      vec_compute. lra.
    + rewrite beckmannPdfH_at_0. exact Hc.
  - apply G.
    + rewrite sampleGGXDistribution_wi, ggxCosThetaM_at_0,
        microfacetNormal_cos_1, mirror_up_about_normal.
      vec_compute. lra.
    + rewrite ggxPdfH_at_0. exact Hc.
Defined.

(** ** Range of the dielectric Fresnel terms *)

(** A ratio [(a - b) / (a + b)] of non-negative numbers with a positive sum
    lies in [[-1, 1]]. *)
Lemma contrast_ratio_bounds (a b : R) :
  0 <= a -> 0 <= b -> 0 < a + b -> -1 <= (a - b) / (a + b) <= 1.
Proof.
  intros Ha Hb Hsum.
  assert (Hinv : 0 < / (a + b)) by now apply Rinv_0_lt_compat.
  assert (Hone : (a + b) * / (a + b) = 1) by (apply Rinv_r; lra).
  unfold Rdiv. split; nra.
Qed.

Lemma square_le_1 (q : R) : -1 <= q <= 1 -> 0 <= q * q <= 1.
Proof. intros H. split; nra. Qed.

Lemma dielectricFresnelSchlick_range (VdH IoR : R) :
  0 < IoR -> 0 <= VdH <= 1 -> 0 <= dielectricFresnelSchlick VdH IoR <= 1.
Proof.
  intros HIoR Hcos. unfold dielectricFresnelSchlick. cbv zeta.
  assert (Hq : -1 <= (1 - IoR) / (1 + IoR) <= 1).
  { destruct (Rle_lt_dec IoR 1) as [Hle | Hgt].
    - apply contrast_ratio_bounds; lra.
    - replace ((1 - IoR) / (1 + IoR)) with (- ((IoR - 1) / (IoR + 1))) by (field; lra).
      pose proof (contrast_ratio_bounds IoR 1). lra. }
  apply square_le_1 in Hq.
  set (R0 := (1 - IoR) / (1 + IoR) * ((1 - IoR) / (1 + IoR))) in *.
  set (c := 1 - VdH).
  assert (Hc : 0 <= c <= 1) by (unfold c; lra).
  assert (Hc2 : 0 <= c * c <= 1) by (split; nra).
  assert (Hc4 : 0 <= c * c * (c * c) <= 1) by (split; nra).
  assert (Hc5 : 0 <= c * (c * c * (c * c)) <= 1) by (split; nra).
  replace ((1 - R0) * c * (c * c) * (c * c))
    with ((1 - R0) * (c * (c * c * (c * c)))) by ring.
  split; nra.
Qed.

Lemma dielectricFresnel_range (NdE IoR : R) :
  0 < IoR -> 0 <= NdE <= 1 -> 0 <= dielectricFresnel NdE IoR <= 1.
Proof.
  intros HIoR Hcos. unfold dielectricFresnel. cbv zeta.
  rewrite Rgeb_true by lra.
  set (NdL2 := 1 - 1 / IoR * (1 / IoR) * (1 - NdE * NdE)).
  destruct (Rleb_spec NdL2 0) as [Htir | Hrefr]; [lra |].
  assert (HNdL : 0 < sqrt NdL2) by (apply sqrt_lt_R0; lra).
  unfold abs. rewrite Rabs_pos_eq by lra.
  set (a := IoR * sqrt NdL2).
  assert (Ha : 0 < a) by (unfold a; apply Rmult_lt_0_compat; lra).
  pose proof (square_le_1 _ (contrast_ratio_bounds a NdE ltac:(lra) ltac:(lra) ltac:(lra))) as Hp.
  pose proof (square_le_1 _ (contrast_ratio_bounds NdE a ltac:(lra) ltac:(lra) ltac:(lra))) as Hs.
  lra.
Qed.

(** C2: for every [IoR > 0] and every cosine in [[0,1]] both
    [dielectricFresnelSchlick] and [dielectricFresnel] return a value in
    [[0,1]]. *)
Theorem dielectric_fresnel_in_unit_interval (cosine IoR : R) :
  0 < IoR -> 0 <= cosine <= 1 ->
  0 <= dielectricFresnelSchlick cosine IoR <= 1
  /\ 0 <= dielectricFresnel cosine IoR <= 1.
Proof.
  intros HIoR Hcos. split.
  - now apply dielectricFresnelSchlick_range.
  - now apply dielectricFresnel_range.
Qed.

Lemma dielectric_fresnel_in_unit_interval_witness :
  0 <= dielectricFresnelSchlick 0.5 1.5 <= 1
  /\ 0 <= dielectricFresnel 0.5 1.5 <= 1.
Proof. apply (dielectric_fresnel_in_unit_interval 0.5 1.5); lra. Defined.

(** ** The exponent of the Beckmann lobe *)

Lemma Rinv_nonneg (d : R) : 0 <= d -> 0 <= / d.
Proof.
  intros H. destruct (Req_dec d 0) as [E | E].
  - rewrite E, Rinv_0. lra.
  - left. apply Rinv_0_lt_compat. lra.
Qed.

Lemma exp_neg_le_1 (e : R) : 0 <= e -> exp (- e) <= 1.
Proof.
  intros [H | H].
  - left. rewrite <- exp_0. apply exp_increasing. lra.
  - rewrite <- H, Ropp_0, exp_0. lra.
Qed.

(** The quotient that the isotropic form clamps, and the quotient that the
    anisotropic form hands to [exp] as it is. *)
Lemma isotropic_exponent_is_clamped_quotient (N H : vec3) (roughness : R) :
  Isotropic.evalBeckmannDistribution_exponent N H roughness
  = Rmax 0 ((1 - V3.dot N H * V3.dot N H)
            / (roughness * roughness * (V3.dot N H * V3.dot N H))).
Proof. reflexivity. Qed.

Lemma anisotropic_exponent_is_quotient (H : vec3) (rgns : vec2) :
  Anisotropic.evalBeckmannDistribution_exponent H rgns
  = (V3.x H * V3.x H / (V2.x rgns * V2.x rgns)
     + V3.y H * V3.y H / (V2.y rgns * V2.y rgns))
    / (V3.z H * V3.z H).
Proof.
  unfold Anisotropic.evalBeckmannDistribution_exponent.
  destruct H as [hx hy hz], rgns as [rx ry]. vec_compute.
  unfold Rdiv. ring.
Qed.

Lemma anisotropic_quotient_nonneg (hx hy hz rx ry : R) :
  0 <= (hx * hx / (rx * rx) + hy * hy / (ry * ry)) / (hz * hz).
Proof.
  assert (Hx : 0 <= / (rx * rx)) by (apply Rinv_nonneg; nra).
  assert (Hy : 0 <= / (ry * ry)) by (apply Rinv_nonneg; nra).
  assert (Hz : 0 <= / (hz * hz)) by (apply Rinv_nonneg; nra).
  unfold Rdiv. apply Rmult_le_pos; [| exact Hz].
  apply Rplus_le_le_0_compat; apply Rmult_le_pos;
    (exact Hx || exact Hy || nra).
Qed.

(** The clamp of the isotropic form acts: a half vector longer than 1 makes
    the quotient negative, and the exponent is 0, not the quotient. *)
Example isotropic_exponent_clamp_acts :
  (1 - 2 * 2) / (0.5 * 0.5 * (2 * 2)) = -3
  /\ Isotropic.evalBeckmannDistribution_exponent (v3 0 0 1) (v3 0 0 2) 0.5 = 0.
Proof.
  split; [lra |].
  rewrite isotropic_exponent_is_clamped_quotient. vec_compute.
  replace ((1 - (0 * 0 + 0 * 0 + 1 * 2) * (0 * 0 + 0 * 0 + 1 * 2))
           / (0.5 * 0.5 * ((0 * 0 + 0 * 0 + 1 * 2) * (0 * 0 + 0 * 0 + 1 * 2))))
    with (-3) by lra.
  apply Rmax_left. lra.
Qed.

(** The anisotropic form in single precision at [H = (0,0,1)] (so [NoH = 1])
    and [roughness = (0, 0.5)].  Line 139 computes [H.x / (rgns.x * rgns.x)]
    as [0 / 0], which is not a number, and nothing after it brings the
    exponent back: it is neither [>= 0] nor equal to [max(0, exponent)], the
    value that the clamp of the isotropic form would hand to [exp]. *)
Lemma anisotropic_exponent_is_not_clamped :
  let H := F32.f3 (F32.of_Z 0) (F32.of_Z 0) (F32.of_Z 1) in
  let rgns := F32.f2 (F32.of_Z 0) (F32.decimal 1 2) in
  let exponent := AnisotropicF32.evalBeckmannDistribution_exponent H rgns in
  F32.dot3 (F32.f3 (F32.of_Z 0) (F32.of_Z 0) (F32.of_Z 1)) H = F32.of_Z 1
  /\ exponent = S754_nan
  /\ F32.leb (F32.of_Z 0) exponent = false
  /\ F32.max (F32.of_Z 0) exponent = F32.of_Z 0.
Proof. vm_compute. repeat split; reflexivity. Qed.

(** C5 (amended): only the isotropic form of [evalBeckmannDistribution]
    clamps: the exponent it negates is [max(0, q)] with
    [q = (1 - NoH^2) / (a2 * NoH^2)].  The anisotropic form has no clamp:
    it negates the quotient
    [(H.x^2 / rgns.x^2 + H.y^2 / rgns.y^2) / NoH^2] itself, which is at
    least 0 in exact arithmetic when no roughness component is 0.  In both
    forms, for every such input with non-zero [NoH], the exponential factor
    is at most 1. *)
Theorem evalBeckmannDistribution_exponent_argument (N H : vec3) (roughness : R)
    (rgns : vec2) :
  V3.dot N H <> 0 -> V3.z H <> 0 -> V2.x rgns <> 0 -> V2.y rgns <> 0 ->
  let NoH2 := V3.dot N H * V3.dot N H in
  let qi := (1 - NoH2) / (roughness * roughness * NoH2) in
  let qa := (V3.x H * V3.x H / (V2.x rgns * V2.x rgns)
             + V3.y H * V3.y H / (V2.y rgns * V2.y rgns))
            / (V3.z H * V3.z H) in
  (Isotropic.evalBeckmannDistribution N H roughness
   = exp (- Rmax 0 qi) / (PI * (roughness * roughness) * NoH2 * NoH2)
   /\ exp (- Rmax 0 qi) <= 1)
  /\ (Anisotropic.evalBeckmannDistribution H rgns
      = exp (- qa)
        / (PI * V2.x rgns * V2.y rgns * (V3.z H * V3.z H) * (V3.z H * V3.z H))
      /\ 0 <= qa
      /\ exp (- qa) <= 1).
Proof.
  intros _ _ _ _. cbv zeta.
  pose proof (anisotropic_quotient_nonneg (V3.x H) (V3.y H) (V3.z H)
                (V2.x rgns) (V2.y rgns)) as Hq.
  split; [split | split; [| split]].
  - unfold Isotropic.evalBeckmannDistribution. cbv zeta.
    now rewrite isotropic_exponent_is_clamped_quotient.
  - apply exp_neg_le_1, Rmax_l.
  - unfold Anisotropic.evalBeckmannDistribution. cbv zeta.
    now rewrite anisotropic_exponent_is_quotient.
  - exact Hq.
  - now apply exp_neg_le_1.
Qed.

Lemma evalBeckmannDistribution_exponent_argument_witness :
  Isotropic.evalBeckmannDistribution (v3 0 0 1) (v3 0.6 0 0.8) 0.5
  = exp (- Rmax 0 ((1 - 0.8 * 0.8) / (0.5 * 0.5 * (0.8 * 0.8))))
    / (PI * (0.5 * 0.5) * (0.8 * 0.8) * (0.8 * 0.8))
  /\ Anisotropic.evalBeckmannDistribution (v3 0.6 0 0.8) (v2 0.5 0.25)
     = exp (- ((0.6 * 0.6 / (0.5 * 0.5) + 0 * 0 / (0.25 * 0.25)) / (0.8 * 0.8)))
       / (PI * 0.5 * 0.25 * (0.8 * 0.8) * (0.8 * 0.8)).
Proof.
  assert (Hn : V3.dot (v3 0 0 1) (v3 0.6 0 0.8) <> 0) by (vec_compute; lra).
  assert (Hz : V3.z (v3 0.6 0 0.8) <> 0) by (vec_compute; lra).
  assert (Hx : V2.x (v2 0.5 0.25) <> 0) by (vec_compute; lra).
  assert (Hy : V2.y (v2 0.5 0.25) <> 0) by (vec_compute; lra).
  pose proof (evalBeckmannDistribution_exponent_argument
                (v3 0 0 1) (v3 0.6 0 0.8) 0.5 (v2 0.5 0.25) Hn Hz Hx Hy) as W.
  cbv zeta in W. destruct W as [[Wi _] [Wa _]].
  replace (0.8 * 0.8) with (V3.dot (v3 0 0 1) (v3 0.6 0 0.8)
                            * V3.dot (v3 0 0 1) (v3 0.6 0 0.8))
    at 1 2 3 4 by (vec_compute; lra).
  split; [exact Wi | exact Wa].
Defined.

(** ** Isotropic and anisotropic GGX *)

Lemma saturate_id (a : R) : 0 <= a <= 1 -> saturate a = a.
Proof.
  intros H. unfold saturate, min, max.
  rewrite Rmax_left by lra. now rewrite Rmin_left by lra.
Qed.

(** The two forms in single precision at [N = H = (0,0,1)], a unit half
    vector along the normal.  The isotropic form computes its denominator as
    [(NoH * a2 - NoH) * NoH + 1]: with [a2] below the last place of 1 the
    difference rounds to [-1], the denominator to 0 and the result to
    infinity (roughness [1e-4]); with [a2 = 1e-6] the denominator keeps four
    digits and the result is 2.6 % low.  The anisotropic form adds
    [NoH2 * r * r] to a sum of squares and keeps its digits:
    [15915495 * 2] is [1 / (pi * 1e-8)] and [10185915 / 32] is
    [1 / (pi * 1e-6)]. *)
Lemma evalGGXDistribution_forms_differ_in_single_precision :
  let up := F32.f3 (F32.of_Z 0) (F32.of_Z 0) (F32.of_Z 1) in
  let r4 := F32.decimal 1 10000 in
  let r3 := F32.decimal 1 1000 in
  (F32.dot3 up up = F32.of_Z 1
   /\ F32.ltb (F32.of_Z 0) r4 = true /\ F32.ltb (F32.of_Z 0) r3 = true)
  /\ (IsotropicF32.evalGGXDistribution up up r4 = S754_infinity false
      /\ AnisotropicF32.evalGGXDistribution up (F32.f2 r4 r4)
         = S754_finite false 15915495 1
      /\ F32.eqb (IsotropicF32.evalGGXDistribution up up r4)
                 (AnisotropicF32.evalGGXDistribution up (F32.f2 r4 r4)) = false)
  /\ (IsotropicF32.evalGGXDistribution up up r3 = S754_finite false 9920694 (-5)
      /\ AnisotropicF32.evalGGXDistribution up (F32.f2 r3 r3)
         = S754_finite false 10185915 (-5)
      /\ F32.eqb (IsotropicF32.evalGGXDistribution up up r3)
                 (AnisotropicF32.evalGGXDistribution up (F32.f2 r3 r3)) = false).
Proof. vm_compute. repeat split; reflexivity. Qed.

(** At roughness [0.5] the two forms return the same binary32 number. *)
Example evalGGXDistribution_forms_agree_at_half :
  let up := F32.f3 (F32.of_Z 0) (F32.of_Z 0) (F32.of_Z 1) in
  let r := F32.decimal 1 2 in
  IsotropicF32.evalGGXDistribution up up r
  = AnisotropicF32.evalGGXDistribution up (F32.f2 r r).
Proof. vm_compute. reflexivity. Qed.

(** C10 (amended): in exact arithmetic, for every roughness [r > 0] and
    every unit half vector [H] with [H.z >= 0], the isotropic
    [evalGGXDistribution(N, H, r)] at [N = (0,0,1)] equals the anisotropic
    [evalGGXDistribution(H, (r, r))].  (In single precision the two differ
    for small roughness, as shown above.) *)
Theorem evalGGXDistribution_isotropic_is_anisotropic (H : vec3) (r : R) :
  0 < r ->
  V3.x H * V3.x H + V3.y H * V3.y H + V3.z H * V3.z H = 1 ->
  0 <= V3.z H ->
  Isotropic.evalGGXDistribution (v3 0 0 1) H r
  = Anisotropic.evalGGXDistribution H (v2 r r).
Proof.
  destruct H as [hx hy hz]. vec_compute. intros Hr Hunit Hz.
  unfold Isotropic.evalGGXDistribution, Anisotropic.evalGGXDistribution.
  vec_compute.
  replace (0 * hx + 0 * hy + 1 * hz) with hz by ring.
  rewrite saturate_id by nra.
  rewrite !Rltb_false by lra.
  unfold min. rewrite Rmin_left by lra.
  f_equal. unfold M_PIf.
  assert (E : hx / (1 * 1) * hx + hy / (1 * 1) * hy = hx * hx + hy * hy)
    by (field; lra).
  rewrite E. replace (hx * hx + hy * hy) with (1 - hz * hz) by lra.
  ring.
Qed.

Lemma evalGGXDistribution_isotropic_is_anisotropic_witness :
  Isotropic.evalGGXDistribution (v3 0 0 1) (v3 0.6 0 0.8) 0.5
  = Anisotropic.evalGGXDistribution (v3 0.6 0 0.8) (v2 0.5 0.5).
Proof.
  apply (evalGGXDistribution_isotropic_is_anisotropic (v3 0.6 0 0.8) 0.5);
    vec_compute; lra.
Defined.

(** ** The sampled microfacet normal *)

(** The cosine [1 / sqrt(1 + tan^2)] of an angle with a non-negative squared
    tangent. *)
Lemma cos_of_tan_sqr (t : R) :
  0 <= t ->
  0 < 1 / sqrt (1 + t) <= 1
  /\ 1 / sqrt (1 + t) * (1 / sqrt (1 + t)) = 1 / (1 + t).
Proof.
  intros Ht.
  assert (Hq : 1 <= sqrt (1 + t)).
  { rewrite <- sqrt_1 at 1. apply sqrt_le_1_alt. lra. }
  assert (Hqq : sqrt (1 + t) * sqrt (1 + t) = 1 + t) by (apply sqrt_sqrt; lra).
  set (q := sqrt (1 + t)) in *.
  assert (Hinv : 0 < / q) by (apply Rinv_0_lt_compat; lra).
  assert (Hone : q * / q = 1) by (apply Rinv_r; lra).
  split; [unfold Rdiv; split; nra |].
  rewrite <- Hqq. field. lra.
Qed.

Lemma beckmann_tan_sqr_nonneg (roughness rSample : vec2) :
  0 <= V2.x rSample < 1 ->
  0 <= V2.x roughness * V2.x roughness * - log (1 - V2.x rSample).
Proof.
  intros Hu. unfold log.
  assert (Hln : ln (1 - V2.x rSample) <= 0).
  { destruct (Req_dec (V2.x rSample) 0) as [E | E].
    - rewrite E. replace (1 - 0) with 1 by lra. rewrite ln_1. lra.
    - left. rewrite <- ln_1. apply ln_increasing; lra. }
  apply Rmult_le_pos; [nra | lra].
Qed.

Lemma ggx_tan_sqr_nonneg (roughness rSample : vec2) :
  0 <= V2.x rSample < 1 ->
  0 <= V2.x roughness * V2.x roughness * V2.x rSample / (1 - V2.x rSample).
Proof.
  intros Hu. unfold Rdiv. apply Rmult_le_pos.
  - apply Rmult_le_pos; [nra | lra].
  - left. apply Rinv_0_lt_compat. lra.
Qed.

Lemma beckmannCosThetaM_range (roughness rSample : vec2) :
  0 <= V2.x rSample < 1 -> 0 < beckmannCosThetaM roughness rSample <= 1.
Proof.
  intros Hu. unfold beckmannCosThetaM.
  apply cos_of_tan_sqr. now apply beckmann_tan_sqr_nonneg.
Qed.

Lemma ggxCosThetaM_range (roughness rSample : vec2) :
  0 <= V2.x rSample < 1 -> 0 < ggxCosThetaM roughness rSample <= 1.
Proof.
  intros Hu. unfold ggxCosThetaM.
  apply cos_of_tan_sqr. now apply ggx_tan_sqr_nonneg.
Qed.

(** The sine that goes with a cosine in [(0, 1]]. *)
Lemma sin_of_cos_sqr (c : R) :
  0 < c <= 1 ->
  sqrt (max 0 (1 - c * c)) * sqrt (max 0 (1 - c * c)) = 1 - c * c.
Proof.
  intros Hc. unfold max. rewrite Rmax_right by nra. apply sqrt_sqrt. nra.
Qed.

Lemma microfacetNormal_unit (c : R) (rSample : vec2) :
  0 < c <= 1 ->
  V3.dot (microfacetNormal c rSample) (microfacetNormal c rSample) = 1
  /\ V3.z (microfacetNormal c rSample) = c.
Proof.
  intros Hc. unfold microfacetNormal. cbv zeta.
  pose proof (sin_of_cos_sqr c Hc) as Hs.
  set (sn := sqrt (max 0 (1 - c * c))) in *.
  set (phi := 2 * M_PIf * V2.y rSample).
  pose proof (sin2_cos2 phi) as Hphi. unfold Rsqr in Hphi.
  vec_compute. split; [| reflexivity].
  replace (sn * cos phi * (sn * cos phi) + sn * sin phi * (sn * sin phi) + c * c)
    with (sn * sn * (sin phi * sin phi + cos phi * cos phi) + c * c) by ring.
  rewrite Hphi, Hs. ring.
Qed.

(** C9: for [roughness.x > 0] and both components of the random sample in
    [[0,1)], each sampler writes a microfacet normal [m] with
    [m.x^2 + m.y^2 + m.z^2 = 1] and [m.z > 0]; and whatever the reference
    parameters held before the call, the call leaves the same [m], [wi] and
    [pdf] (and returns the same weight), so all three are written on every
    path, the failure path included. *)
Theorem sampled_normal_unit_and_refs_written (wo : vec3)
    (roughness rSample : vec2) (s : SampleRefs) :
  0 < V2.x roughness ->
  0 <= V2.x rSample < 1 ->
  0 <= V2.y rSample < 1 ->
  let rb := sampleBeckmannDistribution wo roughness rSample s in
  let rg := sampleGGXDistribution wo roughness rSample s in
  (V3.x (m (snd rb)) * V3.x (m (snd rb)) + V3.y (m (snd rb)) * V3.y (m (snd rb))
   + V3.z (m (snd rb)) * V3.z (m (snd rb)) = 1
   /\ 0 < V3.z (m (snd rb)))
  /\ (V3.x (m (snd rg)) * V3.x (m (snd rg)) + V3.y (m (snd rg)) * V3.y (m (snd rg))
      + V3.z (m (snd rg)) * V3.z (m (snd rg)) = 1
      /\ 0 < V3.z (m (snd rg)))
  /\ (forall s' : SampleRefs,
        sampleBeckmannDistribution wo roughness rSample s' = rb
        /\ sampleGGXDistribution wo roughness rSample s' = rg).
Proof.
  intros _ Hux _. cbv zeta.
  rewrite sampleBeckmannDistribution_m, sampleGGXDistribution_m.
  pose proof (beckmannCosThetaM_range roughness rSample Hux) as Hb.
  pose proof (ggxCosThetaM_range roughness rSample Hux) as Hg.
  destruct (microfacetNormal_unit _ rSample Hb) as [Ub Zb].
  destruct (microfacetNormal_unit _ rSample Hg) as [Ug Zg].
  repeat split.
  - exact Ub.
  - rewrite Zb. apply Hb.
  - exact Ug.
  - rewrite Zg. apply Hg.
  - now rewrite !sampleBeckmannDistribution_eq.
  - now rewrite !sampleGGXDistribution_eq.
Qed.

Lemma sampled_normal_unit_and_refs_written_witness :
  0 < V3.z (m (snd (sampleBeckmannDistribution (v3 0 0 1) (v2 0.5 0.5) (v2 0.5 0) blankRefs)))
  /\ 0 < V3.z (m (snd (sampleGGXDistribution (v3 0 0 1) (v2 0.5 0.5) (v2 0.5 0) blankRefs))).
Proof.
  assert (Hr : 0 < V2.x (v2 0.5 0.5)) by (vec_compute; lra).
  assert (Hx : 0 <= V2.x (v2 0.5 0) < 1) by (vec_compute; lra).
  assert (Hy : 0 <= V2.y (v2 0.5 0) < 1) by (vec_compute; lra).
  pose proof (sampled_normal_unit_and_refs_written
                (v3 0 0 1) (v2 0.5 0.5) (v2 0.5 0) blankRefs Hr Hx Hy) as W.
  cbv zeta in W. destruct W as [[_ Wb] [[_ Wg] _]]. split; assumption.
Defined.

(** ** The density over half vectors for an isotropic roughness

    With the same roughness on both axes the density the samplers compute is,
    in exact arithmetic, the distribution evaluated at the sampled normal
    times the cosine of the normal, [D(m) * m.z]. *)

Lemma mirror_dot_normal (wo n : vec3) :
  V3.dot n n = 1 -> V3.dot (mirror wo n) n = V3.dot wo n.
Proof.
  destruct wo as [a b c], n as [nx ny nz]. unfold mirror. vec_compute.
  intros Hn.
  replace ((- a - 2 * (- a * nx + - b * ny + - c * nz) * nx) * nx
           + (- b - 2 * (- a * nx + - b * ny + - c * nz) * ny) * ny
           + (- c - 2 * (- a * nx + - b * ny + - c * nz) * nz) * nz)
    with ((a * nx + b * ny + c * nz) * (2 * (nx * nx + ny * ny + nz * nz) - 1))
    by ring.
  rewrite Hn. ring.
Qed.

(** The sum of squares of the tangent-plane components of the sampled
    normal. *)
Lemma microfacetNormal_plane (c : R) (rSample : vec2) :
  0 < c <= 1 ->
  V3.x (microfacetNormal c rSample) * V3.x (microfacetNormal c rSample)
  + V3.y (microfacetNormal c rSample) * V3.y (microfacetNormal c rSample)
  = 1 - c * c.
Proof.
  intros Hc. destruct (microfacetNormal_unit c rSample Hc) as [U Z].
  unfold V3.dot in U. rewrite Z in U. lra.
Qed.

Lemma beckmann_density_is_D_cos (r : R) (rSample : vec2) :
  0 < r -> 0 <= V2.x rSample < 1 ->
  let n := microfacetNormal (beckmannCosThetaM (v2 r r) rSample) rSample in
  beckmannPdfH (v2 r r) rSample
  = Anisotropic.evalBeckmannDistribution n (v2 r r) * V3.z n.
Proof.
  intros Hr Hu. cbv zeta.
  pose proof (beckmannCosThetaM_range (v2 r r) rSample Hu) as Hc.
  pose proof (microfacetNormal_plane _ rSample Hc) as Hplane.
  destruct (microfacetNormal_unit _ rSample Hc) as [_ Hz].
  pose proof (beckmann_tan_sqr_nonneg (v2 r r) rSample Hu) as Ht.
  destruct (cos_of_tan_sqr _ Ht) as [_ Hcc].
  fold (beckmannCosThetaM (v2 r r) rSample) in Hcc.
  unfold beckmannPdfH, Anisotropic.evalBeckmannDistribution,
    Anisotropic.evalBeckmannDistribution_exponent. cbv zeta.
  rewrite Hz.
  set (c := beckmannCosThetaM (v2 r r) rSample) in *.
  set (n := microfacetNormal c rSample) in *.
  change (V2.x (v2 r r)) with r in *. change (V2.y (v2 r r)) with r in *.
  set (u := V2.x rSample) in *.
  assert (He : V2.dot (V2.div (v2 (V3.x n) (V3.y n)) (V2.mul (v2 r r) (v2 r r)))
                 (v2 (V3.x n) (V3.y n)) / (c * c)
               = - log (1 - u)).
  { unfold V2.dot, V2.div, V2.mul. cbn [V2.x V2.y].
    replace (V3.x n / (r * r) * V3.x n + V3.y n / (r * r) * V3.y n)
      with ((V3.x n * V3.x n + V3.y n * V3.y n) / (r * r)) by (field; lra).
    rewrite Hplane, Hcc. set (l := log (1 - u)) in *. field. split; lra. }
  rewrite He, Ropp_involutive. unfold log. rewrite exp_ln by lra.
  unfold M_PIf. field. repeat split; try lra. apply PI_neq0.
Qed.

Lemma ggx_density_is_D_cos (r : R) (rSample : vec2) :
  0 < r -> 0 <= V2.x rSample < 1 ->
  let n := microfacetNormal (ggxCosThetaM (v2 r r) rSample) rSample in
  ggxPdfH (v2 r r) rSample
  = Anisotropic.evalGGXDistribution n (v2 r r) * V3.z n.
Proof.
  intros Hr Hu. cbv zeta.
  pose proof (ggxCosThetaM_range (v2 r r) rSample Hu) as Hc.
  pose proof (microfacetNormal_plane _ rSample Hc) as Hplane.
  destruct (microfacetNormal_unit _ rSample Hc) as [_ Hz].
  pose proof (ggx_tan_sqr_nonneg (v2 r r) rSample Hu) as Ht.
  destruct (cos_of_tan_sqr _ Ht) as [_ Hcc].
  fold (ggxCosThetaM (v2 r r) rSample) in Hcc.
  unfold ggxPdfH, Anisotropic.evalGGXDistribution. cbv zeta.
  rewrite Hz.
  set (c := ggxCosThetaM (v2 r r) rSample) in *.
  set (n := microfacetNormal c rSample) in *.
  change (V2.x (v2 r r)) with r in *. change (V2.y (v2 r r)) with r in *.
  set (u := V2.x rSample) in *.
  set (t := r * r * u / (1 - u)) in *.
  rewrite !Rltb_false by lra.
  unfold min. rewrite Rmin_left by lra.
  unfold V2.dot, V2.div. cbn [V2.x V2.y].
  replace (V3.x n / (1 * 1) * V3.x n + V3.y n / (1 * 1) * V3.y n)
    with (V3.x n * V3.x n + V3.y n * V3.y n) by (field; lra).
  rewrite Hplane.
  assert (Hone : c * c * (1 + t) = 1) by (rewrite Hcc; field; lra).
  replace (c * c * r * r + (1 - c * c)) with (c * c * (r * r + t)) by lra.
  assert (Hrt : 0 < r * r + t) by nra.
  unfold M_1_PIf, M_PIf. field. repeat split; try lra. apply PI_neq0.
Qed.

(** ** The sample straight above the surface *)

Lemma neg_ln_upper (y : R) : 0 < y -> - ln y <= / y - 1.
Proof.
  intros Hy. pose proof (exp_ineq1_le (- ln y)) as H.
  rewrite exp_Ropp, exp_ln in H by exact Hy. lra.
Qed.

(** With [wo] along the normal the reflected direction has
    [wi.z = 2 * m.z^2 - 1]. *)
Lemma mirror_up_z (n : vec3) :
  V3.z (mirror (v3 0 0 1) n) = 2 * (V3.z n * V3.z n) - 1.
Proof. destruct n as [nx ny nz]. unfold mirror. vec_compute. ring. Qed.

Lemma dot_up (n : vec3) : V3.dot (v3 0 0 1) n = V3.z n.
Proof. destruct n as [nx ny nz]. vec_compute. ring. Qed.

(** What the weighted return of a sampler yields for [wo = (0,0,1)] once the
    density is known to be [D(m) * m.z]: a weight of exactly 1 and a density
    over incident directions of [density / (4 * m.z)]. *)
Lemma weighted_return_above (D p c : R) :
  0 < c -> 1e-20 <= p -> p = D * c ->
  D * c / (clampPdf p * 1) = 1 /\ 0 < clampPdf p / (4 * c).
Proof.
  intros Hc Hp HD. rewrite (clampPdf_above _ Hp), <- HD. split.
  - field. lra.
  - apply Rdiv_lt_0_compat; lra.
Qed.

Lemma beckmann_above_scenario :
  let roughness := v2 0.5 0.5 in
  let rSample := v2 0.5 0 in
  let c := beckmannCosThetaM roughness rSample in
  0 < c <= 1 /\ 1 / 2 < c * c /\ 1e-20 <= beckmannPdfH roughness rSample.
Proof.
  cbv zeta.
  assert (Hu : 0 <= V2.x (v2 0.5 0) < 1) by (vec_compute; lra).
  pose proof (beckmannCosThetaM_range (v2 0.5 0.5) (v2 0.5 0) Hu) as Hc.
  pose proof (beckmann_tan_sqr_nonneg (v2 0.5 0.5) (v2 0.5 0) Hu) as Ht.
  destruct (cos_of_tan_sqr _ Ht) as [_ Hcc].
  fold (beckmannCosThetaM (v2 0.5 0.5) (v2 0.5 0)) in Hcc.
  unfold beckmannPdfH. cbv zeta.
  set (c := beckmannCosThetaM (v2 0.5 0.5) (v2 0.5 0)) in *.
  change (V2.x (v2 0.5 0.5)) with 0.5 in *.
  change (V2.y (v2 0.5 0.5)) with 0.5 in *.
  change (V2.x (v2 0.5 0)) with 0.5 in *.
  unfold log in *.
  assert (Hl : - ln (1 - 0.5) <= 1).
  { pose proof (neg_ln_upper (1 - 0.5) ltac:(lra)) as H.
    replace (/ (1 - 0.5)) with 2 in H by lra. lra. }
  set (t := 0.5 * 0.5 * - ln (1 - 0.5)) in *.
  assert (Ht1 : t <= 1 / 4) by (unfold t; lra).
  assert (Hone : c * c * (1 + t) = 1) by (rewrite Hcc; field; lra).
  split; [exact Hc |]. split; [nra |].
  assert (Hc3 : 0 < c * c * c <= 1) by (split; nra).
  assert (Hden : 0 < M_PIf * 0.5 * 0.5 * c * c * c <= 1).
  { unfold M_PIf. pose proof PI_RGT_0. pose proof PI_4.
    replace (PI * 0.5 * 0.5 * c * c * c) with (PI * / 4 * (c * c * c)) by lra.
    split; nra. }
  assert (Hinv : 1 <= / (M_PIf * 0.5 * 0.5 * c * c * c)).
  { rewrite <- Rinv_1 at 1. apply Rinv_le_contravar; lra. }
  unfold Rdiv. lra.
Qed.

Lemma ggx_above_scenario :
  let roughness := v2 0.5 0.5 in
  let rSample := v2 0.5 0 in
  let c := ggxCosThetaM roughness rSample in
  0 < c <= 1 /\ 1 / 2 < c * c /\ 1e-20 <= ggxPdfH roughness rSample.
Proof.
  cbv zeta.
  assert (Hu : 0 <= V2.x (v2 0.5 0) < 1) by (vec_compute; lra).
  pose proof (ggxCosThetaM_range (v2 0.5 0.5) (v2 0.5 0) Hu) as Hc.
  pose proof (ggx_tan_sqr_nonneg (v2 0.5 0.5) (v2 0.5 0) Hu) as Ht.
  destruct (cos_of_tan_sqr _ Ht) as [_ Hcc].
  fold (ggxCosThetaM (v2 0.5 0.5) (v2 0.5 0)) in Hcc.
  unfold ggxPdfH. cbv zeta.
  set (c := ggxCosThetaM (v2 0.5 0.5) (v2 0.5 0)) in *.
  change (V2.x (v2 0.5 0.5)) with 0.5 in *.
  change (V2.y (v2 0.5 0.5)) with 0.5 in *.
  change (V2.x (v2 0.5 0)) with 0.5 in *.
  replace (0.5 * 0.5 * 0.5 / (1 - 0.5)) with (1 / 4) in * by lra.
  replace (1 + 1 / 4 / (0.5 * 0.5)) with 2 by lra.
  assert (Hone : c * c * (1 + 1 / 4) = 1) by (rewrite Hcc; field).
  split; [exact Hc |]. split; [nra |].
  assert (Hc3 : 0 < c * c * c <= 1) by (split; nra).
  replace (0.5 * 0.5 * c * c * c * 2 * 2) with (c * c * c) by lra.
  assert (Hinv : 1 <= / (c * c * c)).
  { rewrite <- Rinv_1 at 1. apply Rinv_le_contravar; lra. }
  assert (Hpi : 1 / 4 <= M_1_PIf).
  { unfold M_1_PIf. replace (1 / 4) with (/ 4) by lra.
    apply Rinv_le_contravar; [apply PI_RGT_0 | apply PI_4]. }
  unfold Rdiv. nra.
Qed.

(** C8: for [wo = (0,0,1)], roughness [(0.5, 0.5)] and the random sample
    [(0.5, 0.0)], whatever the reference parameters held before the call,
    both samplers return with [wi.z > 0], [pdf > 0] and a weight that is
    exactly 1, hence finite and non-negative. *)
Theorem sample_above_surface_scenario (s : SampleRefs) :
  let wo := v3 0 0 1 in
  let roughness := v2 0.5 0.5 in
  let rSample := v2 0.5 0 in
  let rb := sampleBeckmannDistribution wo roughness rSample s in
  let rg := sampleGGXDistribution wo roughness rSample s in
  (0 < V3.z (wi (snd rb)) /\ 0 < pdf (snd rb) /\ 0 <= fst rb /\ fst rb = 1)
  /\ (0 < V3.z (wi (snd rg)) /\ 0 < pdf (snd rg) /\ 0 <= fst rg /\ fst rg = 1).
Proof.
  cbv zeta.
  assert (Hr : 0 < 0.5) by lra.
  assert (Hu : 0 <= V2.x (v2 0.5 0) < 1) by (vec_compute; lra).
  split.
  - destruct beckmann_above_scenario as [Hc [Hhalf Hp]].
    pose proof (beckmann_density_is_D_cos 0.5 (v2 0.5 0) Hr Hu) as HD.
    cbv zeta in HD.
    destruct (microfacetNormal_unit _ (v2 0.5 0) Hc) as [Hunit Hz].
    rewrite sampleBeckmannDistribution_eq. cbv zeta.
    set (n := microfacetNormal (beckmannCosThetaM (v2 0.5 0.5) (v2 0.5 0)) (v2 0.5 0)) in *.
    assert (Hwz : 0 < V3.z (mirror (v3 0 0 1) n)) by (rewrite mirror_up_z, Hz; lra).
    rewrite Hz in HD.
    destruct (weighted_return_above _ _ _ (proj1 Hc) Hp HD) as [Hw Hpdf].
    rewrite failure_test_false;
      [| exact Hwz | rewrite (clampPdf_above _ Hp); lra].
    cbn [fst snd wi pdf].
    rewrite (mirror_dot_normal _ _ Hunit), dot_up, Hz.
    change (V3.z (v3 0 0 1)) with 1.
    rewrite Hw. repeat split; (exact Hwz || exact Hpdf || lra).
  - destruct ggx_above_scenario as [Hc [Hhalf Hp]].
    pose proof (ggx_density_is_D_cos 0.5 (v2 0.5 0) Hr Hu) as HD.
    cbv zeta in HD.
    destruct (microfacetNormal_unit _ (v2 0.5 0) Hc) as [Hunit Hz].
    rewrite sampleGGXDistribution_eq. cbv zeta.
    set (n := microfacetNormal (ggxCosThetaM (v2 0.5 0.5) (v2 0.5 0)) (v2 0.5 0)) in *.
    assert (Hwz : 0 < V3.z (mirror (v3 0 0 1) n)) by (rewrite mirror_up_z, Hz; lra).
    rewrite Hz in HD.
    destruct (weighted_return_above _ _ _ (proj1 Hc) Hp HD) as [Hw Hpdf].
    rewrite failure_test_false;
      [| exact Hwz | rewrite (clampPdf_above _ Hp); lra].
    cbn [fst snd wi pdf].
    rewrite (mirror_dot_normal _ _ Hunit), dot_up, Hz.
    change (V3.z (v3 0 0 1)) with 1.
    rewrite Hw. repeat split; (exact Hwz || exact Hpdf || lra).
Qed.

(** ** The weight for an isotropic roughness

    On the weighted path, with the same roughness [r > 0] on both axes, the
    distribution cancels against the density in exact arithmetic and the
    weight is [dot(wo, m) / (m.z * wo.z)].  (In single precision the sampled
    cosine rounds to 1 for a roughness below about [1e-3], and the rounded
    weight moves away from this value.) *)

Lemma weight_cancels (D p c d z : R) :
  0 < c -> z <> 0 -> 1e-20 <= p -> p = D * c ->
  D * d / (p * z) = d / (c * z).
Proof.
  intros Hc Hz Hp HD. subst p.
  assert (HDne : D <> 0) by (intros E; rewrite E in Hp; lra).
  field. repeat split; lra.
Qed.

Lemma sampleBeckmannDistribution_isotropic_weight (wo : vec3) (r : R)
    (rSample : vec2) (s : SampleRefs) :
  0 < r -> 0 <= V2.x rSample < 1 -> V3.z wo <> 0 ->
  let res := sampleBeckmannDistribution wo (v2 r r) rSample s in
  0 < V3.z (wi (snd res)) -> 1e-20 <= beckmannPdfH (v2 r r) rSample ->
  fst res = V3.dot wo (m (snd res)) / (V3.z (m (snd res)) * V3.z wo).
Proof.
  intros Hr Hu Hwo. cbv zeta. intros Hwi Hp.
  rewrite sampleBeckmannDistribution_wi in Hwi.
  rewrite (sampleBeckmannDistribution_weighted wo (v2 r r) rSample s Hwi Hp).
  cbn [fst snd m].
  pose proof (beckmannCosThetaM_range (v2 r r) rSample Hu) as Hc.
  destruct (microfacetNormal_unit _ rSample Hc) as [_ Hz].
  pose proof (beckmann_density_is_D_cos r rSample Hr Hu) as HD. cbv zeta in HD.
  apply weight_cancels; [rewrite Hz; apply Hc | exact Hwo | exact Hp | exact HD].
Qed.

Lemma sampleGGXDistribution_isotropic_weight (wo : vec3) (r : R)
    (rSample : vec2) (s : SampleRefs) :
  0 < r -> 0 <= V2.x rSample < 1 -> V3.z wo <> 0 ->
  let res := sampleGGXDistribution wo (v2 r r) rSample s in
  0 < V3.z (wi (snd res)) -> 1e-20 <= ggxPdfH (v2 r r) rSample ->
  fst res = V3.dot wo (m (snd res)) / (V3.z (m (snd res)) * V3.z wo).
Proof.
  intros Hr Hu Hwo. cbv zeta. intros Hwi Hp.
  rewrite sampleGGXDistribution_wi in Hwi.
  rewrite (sampleGGXDistribution_weighted wo (v2 r r) rSample s Hwi Hp).
  cbn [fst snd m].
  pose proof (ggxCosThetaM_range (v2 r r) rSample Hu) as Hc.
  destruct (microfacetNormal_unit _ rSample Hc) as [_ Hz].
  pose proof (ggx_density_is_D_cos r rSample Hr Hu) as HD. cbv zeta in HD.
  apply weight_cancels; [rewrite Hz; apply Hc | exact Hwo | exact Hp | exact HD].
Qed.

(** ** The routines at a few inputs *)

(** Glass ([IoR = 1.5]) seen head-on reflects 4% in both the approximation
    and the full term. *)
Example dielectricFresnelSchlick_glass_normal_incidence :
  dielectricFresnelSchlick 1 1.5 = 0.04.
Proof. unfold dielectricFresnelSchlick. cbv zeta. lra. Qed.

Example dielectricFresnel_glass_normal_incidence :
  dielectricFresnel 1 1.5 = 0.04.
Proof.
  unfold dielectricFresnel. cbv zeta.
  rewrite Rgeb_true by lra.
  replace (1 - 1 / 1.5 * (1 / 1.5) * (1 - 1 * 1)) with 1 by lra.
  rewrite Rleb_false by lra. rewrite sqrt_1.
  unfold abs. rewrite Rabs_pos_eq by lra. lra.
Qed.

(** At the horizon every dielectric reflects everything. *)
Example dielectricFresnelSchlick_horizon (IoR : R) :
  0 < IoR -> dielectricFresnelSchlick 0 IoR = 1.
Proof. intros H. unfold dielectricFresnelSchlick. cbv zeta. ring. Qed.

Example evalGGXDistribution_peak :
  Isotropic.evalGGXDistribution (v3 0 0 1) (v3 0 0 1) 0.5 = 4 / PI.
Proof.
  unfold Isotropic.evalGGXDistribution. vec_compute.
  replace (0 * 0 + 0 * 0 + 1 * 1) with 1 by lra.
  rewrite saturate_id by lra. unfold M_PIf.
  replace 0.5 with (1 / 2) by lra. field. apply PI_neq0.
Qed.

Lemma sqrt_of_square (x y : R) : 0 <= y -> x = y * y -> sqrt x = y.
Proof. intros Hy ->. now apply sqrt_square. Qed.

Example effectiveVisibleRoughness_in_xz_plane :
  effectiveVisibleRoughness (v3 0.6 0 0.8) (v2 0.5 0.25) = 0.5.
Proof.
  unfold effectiveVisibleRoughness, effectiveVisibleRoughness_divisor.
  vec_compute. apply sqrt_of_square; lra.
Qed.

Lemma GSmith_slope_at_37_degrees :
  sqrt (1 - 0.8 * 0.8) / 0.8 = 0.75
  /\ effectiveVisibleRoughness (v3 0.6 0 0.8) (v2 1 1) = 1.
Proof.
  split.
  - rewrite (sqrt_of_square _ 0.6) by lra. lra.
  - unfold effectiveVisibleRoughness, effectiveVisibleRoughness_divisor.
    vec_compute. apply sqrt_of_square; lra.
Qed.

(** The two closed forms of [GSmith] for a direction 37 degrees off the
    normal and unit roughness; the identifier of the Beckmann distribution is
    taken to be 0 here. *)
Example GSmith_GGX_value :
  GSmith 0%N (v3 0.6 0 0.8) (v3 0 0 1) (v2 1 1) 1%N = 8 / 9.
Proof.
  destruct GSmith_slope_at_37_degrees as [Hslope Halpha].
  unfold GSmith. rewrite Halpha.
  change (V3.z (v3 0.6 0 0.8)) with 0.8.
  rewrite Rleb_false by (vec_compute; lra). cbv zeta.
  rewrite Rleb_false by lra. rewrite Hslope.
  change (N.eqb 1 0) with false. cbv iota.
  unfold V2.length. vec_compute.
  rewrite (sqrt_of_square _ 1.25) by lra. lra.
Qed.

Example GSmith_Beckmann_value :
  GSmith 0%N (v3 0.6 0 0.8) (v3 0 0 1) (v2 1 1) 0%N = 6443 / 6462.
Proof.
  destruct GSmith_slope_at_37_degrees as [Hslope Halpha].
  unfold GSmith. rewrite Halpha.
  change (V3.z (v3 0.6 0 0.8)) with 0.8.
  rewrite Rleb_false by (vec_compute; lra). cbv zeta.
  rewrite Rleb_false by lra. rewrite Hslope.
  change (N.eqb 0 0) with true. cbv iota.
  rewrite Rgtb_false by lra. lra.
Qed.

(** Nearer to the normal the fitted parameter passes 1.6 and the Beckmann
    fit is cut off at 1. *)
Example GSmith_Beckmann_cut_off :
  GSmith 0%N (v3 0.28 0 0.96) (v3 0 0 1) (v2 1 1) 0%N = 1.
Proof.
  assert (Halpha : effectiveVisibleRoughness (v3 0.28 0 0.96) (v2 1 1) = 1).
  { unfold effectiveVisibleRoughness, effectiveVisibleRoughness_divisor.
    vec_compute. apply sqrt_of_square; lra. }
  unfold GSmith. rewrite Halpha.
  change (V3.z (v3 0.28 0 0.96)) with 0.96.
  rewrite Rleb_false by (vec_compute; lra). cbv zeta.
  rewrite Rleb_false by lra.
  rewrite (sqrt_of_square _ 0.28) by lra.
  change (N.eqb 0 0) with true. cbv iota.
  now rewrite Rgtb_true by lra.
Qed.

(** A reflection with view and light on opposite sides is masked, a
    transmission is not cut by that test. *)
Example evalMicrofacetTerms_opposite_sides (h : vec3) (roughness : vec2)
    (ndfType : uint) :
  evalMicrofacetTerms 0%N (v3 1 0 0) (v3 0 1 0) (v3 0 0 1) h
    (v3 0 0 1) (v3 0 0 (-1)) roughness ndfType false = 0.
Proof.
  unfold evalMicrofacetTerms. vec_compute.
  now rewrite Rleb_true by lra.
Qed.

(** A view direction above the surface can also take the failure return: the
    GGX sampler with unit roughness and the random sample [(0.36, 0)] draws
    the normal [(0.6, 0, 0.8)]; seen from [wo = (-0.96, 0, 0.28)] that
    microfacet is turned away, the mirror direction points below the surface,
    and the call returns 0 with [pdf] left at the density over half
    vectors. *)
Example sampleGGXDistribution_facet_turned_away (s : SampleRefs) :
  sampleGGXDistribution (v3 (-0.96) 0 0.28) (v2 1 1) (v2 0.36 0) s
  = (0, mkRefs (v3 0.6 0 0.8) (v3 0.5376 0 (-0.8432)) (0.8 / PI)).
Proof.
  assert (Hc : ggxCosThetaM (v2 1 1) (v2 0.36 0) = 0.8).
  { unfold ggxCosThetaM. vec_compute.
    rewrite (sqrt_of_square _ 1.25) by lra. lra. }
  assert (Hn : microfacetNormal 0.8 (v2 0.36 0) = v3 0.6 0 0.8).
  { unfold microfacetNormal, max, M_PIf. vec_compute.
    rewrite Rmax_right by lra.
    rewrite (sqrt_of_square _ 0.6) by lra.
    rewrite Rmult_0_r, cos_0, sin_0. f_equal; lra. }
  assert (Hp : ggxPdfH (v2 1 1) (v2 0.36 0) = 0.8 / PI).
  { unfold ggxPdfH, M_1_PIf. rewrite Hc. vec_compute.
    replace (1 * 1 * 0.8 * 0.8 * 0.8 * (1 + 1 * 1 * 0.36 / (1 - 0.36) / (1 * 1))
             * (1 + 1 * 1 * 0.36 / (1 - 0.36) / (1 * 1))) with 1.25 by lra.
    lra. }
  assert (Hw : mirror (v3 (-0.96) 0 0.28) (v3 0.6 0 0.8) = v3 0.5376 0 (-0.8432)).
  { unfold mirror. vec_compute. f_equal; lra. }
  assert (Hbig : 1e-20 <= 0.8 / PI).
  { pose proof PI_RGT_0 as H0. pose proof PI_4 as H4.
    assert (Hi : / 4 <= / PI) by (apply Rinv_le_contravar; lra).
    unfold Rdiv. lra. }
  rewrite sampleGGXDistribution_eq. cbv zeta.
  rewrite Hc, Hn, Hp, Hw, (clampPdf_above _ Hbig).
  now rewrite failure_test_true by (left; vec_compute; lra).
Qed.

(** * Further properties of the header *)

(** ** Fresnel terms *)

Lemma saturate_range (a : R) : 0 <= saturate a <= 1.
Proof.
  unfold saturate, min, max. split.
  - apply Rmin_glb; [apply Rmax_r | lra].
  - apply Rmin_r.
Qed.

Lemma saturate_below (a : R) : a <= 0 -> saturate a = 0.
Proof.
  intros H. unfold saturate, min, max.
  rewrite Rmax_right by lra. now rewrite Rmin_left by lra.
Qed.

Lemma saturate_above (a : R) : 1 <= a -> saturate a = 1.
Proof.
  intros H. unfold saturate, min, max.
  rewrite Rmax_left by lra. now rewrite Rmin_right by lra.
Qed.

Lemma square_nonneg (a : R) : 0 <= a * a.
Proof. nra. Qed.

(** A quotient of a non-negative number by a larger positive one. *)
Lemma ratio_in_unit_interval (p q : R) :
  0 <= p <= q -> 0 < q -> 0 <= p / q <= 1.
Proof.
  intros Hp Hq.
  assert (Hinv : 0 < / q) by now apply Rinv_0_lt_compat.
  assert (Hone : q * / q = 1) by (apply Rinv_r; lra).
  unfold Rdiv. split; nra.
Qed.

(** X1: for every index of refraction [IoR > 0], every absorption [Kappa]
    and every [NdE] (clamped inside), [conductorFresnel] returns a value in
    [[0,1]]. *)
Theorem conductorFresnel_in_unit_interval (NdE IoR Kappa : R) :
  0 < IoR -> 0 <= conductorFresnel NdE IoR Kappa <= 1.
Proof.
  intros Hn. unfold conductorFresnel. cbv zeta.
  pose proof (saturate_range NdE) as Hc.
  set (c := saturate NdE) in *.
  set (T := IoR * IoR + Kappa * Kappa).
  assert (HT : 0 < T) by (unfold T; nra).
  assert (Hnc : 0 <= IoR * c) by nra.
  assert (Hp : 0 <= (T * (c * c) - IoR * c * 2 + 1)
                    / (T * (c * c) + IoR * c * 2 + 1) <= 1).
  { apply ratio_in_unit_interval.
    - split; [| lra].
      replace (T * (c * c) - IoR * c * 2 + 1)
        with ((IoR * c - 1) * (IoR * c - 1) + Kappa * c * (Kappa * c))
        by (unfold T; ring).
      pose proof (square_nonneg (IoR * c - 1)).
      pose proof (square_nonneg (Kappa * c)). lra.
    - pose proof (square_nonneg c).
      assert (0 <= T * (c * c)) by (apply Rmult_le_pos; lra). lra. }
  assert (Hs : 0 <= (T - IoR * c * 2 + c * c) / (T + IoR * c * 2 + c * c) <= 1).
  { apply ratio_in_unit_interval.
    - split; [| lra].
      replace (T - IoR * c * 2 + c * c)
        with ((IoR - c) * (IoR - c) + Kappa * Kappa) by (unfold T; ring).
      pose proof (square_nonneg (IoR - c)).
      pose proof (square_nonneg Kappa). lra.
    - pose proof (square_nonneg c). lra. }
  lra.
Qed.

Lemma conductorFresnel_in_unit_interval_witness :
  0 <= conductorFresnel 0.5 0.2 3 <= 1.
Proof. apply (conductorFresnel_in_unit_interval 0.5 0.2 3). lra. Defined.

(** X2: [conductorFresnel] clamps its cosine: at or below the horizon
    ([NdE <= 0]) it returns exactly 1, whatever the material, provided the
    complex index is not zero; and beyond [NdE = 1] it returns the value at
    normal incidence. *)
Theorem conductorFresnel_clamps_cosine (NdE IoR Kappa : R) :
  (NdE <= 0 -> IoR * IoR + Kappa * Kappa <> 0 ->
   conductorFresnel NdE IoR Kappa = 1)
  /\ (1 <= NdE ->
      conductorFresnel NdE IoR Kappa = conductorFresnel 1 IoR Kappa).
Proof.
  split.
  - intros H HT. unfold conductorFresnel. cbv zeta.
    rewrite (saturate_below _ H).
    set (T := IoR * IoR + Kappa * Kappa) in *.
    replace (T * (0 * 0) - IoR * 0 * 2 + 1) with 1 by ring.
    replace (T * (0 * 0) + IoR * 0 * 2 + 1) with 1 by ring.
    replace (T - IoR * 0 * 2 + 0 * 0) with T by ring.
    replace (T + IoR * 0 * 2 + 0 * 0) with T by ring.
    unfold Rdiv. rewrite (Rinv_r T HT), Rinv_1. lra.
  - intros H. unfold conductorFresnel. cbv zeta.
    now rewrite (saturate_above _ H), (saturate_above 1) by lra.
Qed.

Lemma conductorFresnel_clamps_cosine_witness :
  conductorFresnel (-0.3) 0.2 3 = 1
  /\ conductorFresnel 2 0.2 3 = conductorFresnel 1 0.2 3.
Proof.
  split.
  - apply (proj1 (conductorFresnel_clamps_cosine (-0.3) 0.2 3)); lra.
  - apply (proj2 (conductorFresnel_clamps_cosine 2 0.2 3)); lra.
Defined.

(** X3: at normal incidence (cosine 1) the four dielectric/conductor terms
    agree exactly: for every [IoR > 0], Schlick's approximation, the full
    dielectric term, the fast term (with both cosines 1) and the conductor
    term without absorption all return [((1 - IoR) / (1 + IoR))^2]. *)
Theorem fresnel_terms_agree_at_normal_incidence (IoR : R) :
  0 < IoR ->
  let R0 := (1 - IoR) / (1 + IoR) * ((1 - IoR) / (1 + IoR)) in
  dielectricFresnelSchlick 1 IoR = R0
  /\ dielectricFresnel 1 IoR = R0
  /\ dielectricFresnelFast 1 1 IoR = R0
  /\ conductorFresnel 1 IoR 0 = R0.
Proof.
  intros Hn. cbv zeta. repeat split.
  - unfold dielectricFresnelSchlick. cbv zeta. ring.
  - unfold dielectricFresnel. cbv zeta.
    rewrite Rgeb_true by lra.
    replace (1 - 1 / IoR * (1 / IoR) * (1 - 1 * 1)) with 1 by (unfold Rdiv; ring).
    rewrite Rleb_false by lra. rewrite sqrt_1.
    unfold abs. rewrite Rabs_pos_eq by lra.
    replace 0.5 with (/ 2) by lra. field. lra.
  - unfold dielectricFresnelFast. cbv zeta.
    replace 0.5 with (/ 2) by lra. field. lra.
  - unfold conductorFresnel. cbv zeta.
    rewrite (saturate_above 1) by lra.
    replace 0.5 with (/ 2) by lra. field.
    split; [lra |]. nra.
Qed.

Lemma fresnel_terms_agree_at_normal_incidence_witness :
  dielectricFresnel 1 2 = dielectricFresnelSchlick 1 2
  /\ conductorFresnel 1 2 0 = dielectricFresnelFast 1 1 2.
Proof.
  assert (H : 0 < 2) by lra.
  pose proof (fresnel_terms_agree_at_normal_incidence 2 H) as W.
  cbv zeta in W. destruct W as [A [B [C D]]].
  split; congruence.
Defined.

(** X4: at the horizon (cosine 0) Schlick's approximation and the full
    dielectric term both return exactly 1, for every [IoR > 0]. *)
Theorem dielectric_terms_reflect_all_at_horizon (IoR : R) :
  0 < IoR ->
  dielectricFresnelSchlick 0 IoR = 1 /\ dielectricFresnel 0 IoR = 1.
Proof.
  intros Hn. split.
  - unfold dielectricFresnelSchlick. cbv zeta. ring.
  - unfold dielectricFresnel. cbv zeta.
    rewrite Rgeb_true by lra.
    set (NdL2 := 1 - 1 / IoR * (1 / IoR) * (1 - 0 * 0)).
    destruct (Rleb_spec NdL2 0) as [Htir | Hrefr]; [reflexivity |].
    assert (HNdL : 0 < sqrt NdL2) by (apply sqrt_lt_R0; lra).
    unfold abs. rewrite Rabs_R0.
    set (a := IoR * sqrt NdL2).
    assert (Ha : 0 < a) by (unfold a; apply Rmult_lt_0_compat; lra).
    replace ((a - 0) / (a + 0)) with 1 by (field; lra).
    replace ((0 - a) / (0 + a)) with (-1) by (field; lra).
    lra.
Qed.

Lemma dielectric_terms_reflect_all_at_horizon_witness :
  dielectricFresnelSchlick 0 1.5 = 1 /\ dielectricFresnel 0 1.5 = 1.
Proof. apply (dielectric_terms_reflect_all_at_horizon 1.5). lra. Defined.

(** Past the total-internal-reflection test the two polarisation ratios of
    [dielectricFresnel] are opposite numbers; [realIoR] is the index the
    function has selected. *)
Lemma dielectricFresnel_past_test (NdE IoR realIoR : R) :
  0 < IoR ->
  (if NdE >=? 0 then 1 / IoR else IoR) = realIoR ->
  0 < 1 - realIoR * realIoR * (1 - NdE * NdE) ->
  let NdL := sqrt (1 - realIoR * realIoR * (1 - NdE * NdE)) in
  let Rs := (Rabs NdE - IoR * NdL) / (Rabs NdE + IoR * NdL) in
  dielectricFresnel NdE IoR = Rs * Rs.
Proof.
  intros Hn E Hrad. cbv zeta. unfold dielectricFresnel. cbv zeta.
  rewrite E. rewrite (Rleb_false _ _ Hrad). unfold abs.
  set (t := sqrt (1 - realIoR * realIoR * (1 - NdE * NdE))).
  assert (Ht : 0 < t) by (apply sqrt_lt_R0; exact Hrad).
  pose proof (Rabs_pos NdE) as Hc.
  set (c := Rabs NdE) in *.
  assert (Hd : 0 < c + IoR * t) by nra.
  replace ((IoR * t - c) / (IoR * t + c)) with (- ((c - IoR * t) / (c + IoR * t)))
    by (field; lra).
  lra.
Qed.

(** A view direction that enters the medium. *)
Lemma dielectricFresnel_entering (NdE IoR : R) :
  0 < IoR -> 0 <= NdE ->
  0 < 1 - 1 / IoR * (1 / IoR) * (1 - NdE * NdE) ->
  let NdL := sqrt (1 - 1 / IoR * (1 / IoR) * (1 - NdE * NdE)) in
  let Rs := (NdE - IoR * NdL) / (NdE + IoR * NdL) in
  dielectricFresnel NdE IoR = Rs * Rs.
Proof.
  intros Hn Hc Hrad. cbv zeta.
  rewrite (dielectricFresnel_past_test NdE IoR (1 / IoR) Hn
             (f_equal (fun b : bool => if b then 1 / IoR else IoR)
                (Rgeb_true _ _ Hc)) Hrad).
  now rewrite Rabs_pos_eq by exact Hc.
Qed.

(** X5: past the total-internal-reflection test the result of
    [dielectricFresnel] is the square of a single ratio: with [NdL] the
    refracted cosine, [((|NdE| - IoR * NdL) / (|NdE| + IoR * NdL))^2]. *)
Theorem dielectricFresnel_is_one_squared_ratio (NdE IoR realIoR : R) :
  0 < IoR ->
  (0 <= NdE -> realIoR = 1 / IoR) ->
  (NdE < 0 -> realIoR = IoR) ->
  0 < 1 - realIoR * realIoR * (1 - NdE * NdE) ->
  let NdL := sqrt (1 - realIoR * realIoR * (1 - NdE * NdE)) in
  let Rs := (Rabs NdE - IoR * NdL) / (Rabs NdE + IoR * NdL) in
  dielectricFresnel NdE IoR = Rs * Rs.
Proof.
  intros Hn Hin Hout Hrad.
  apply dielectricFresnel_past_test; [exact Hn | | exact Hrad].
  destruct (Rle_lt_dec 0 NdE) as [Hpos | Hneg].
  - rewrite (Rgeb_true _ _ Hpos). symmetry. exact (Hin Hpos).
  - rewrite (Rgeb_false _ _ Hneg). symmetry. exact (Hout Hneg).
Qed.

Lemma dielectricFresnel_is_one_squared_ratio_witness :
  dielectricFresnel 1 1.5 = (Rabs 1 - 1.5 * sqrt 1) / (Rabs 1 + 1.5 * sqrt 1)
                            * ((Rabs 1 - 1.5 * sqrt 1) / (Rabs 1 + 1.5 * sqrt 1)).
Proof.
  pose proof (dielectricFresnel_is_one_squared_ratio 1 1.5 (1 / 1.5)) as W.
  cbv zeta in W.
  replace (1 - 1 / 1.5 * (1 / 1.5) * (1 - 1 * 1)) with 1 in W by lra.
  apply W; lra.
Defined.

Lemma fifth_power_monotone (a b : R) :
  0 <= a <= b -> a * (a * a) * (a * a) <= b * (b * b) * (b * b).
Proof.
  intros H.
  assert (H2 : 0 <= a * a <= b * b) by (split; nra).
  assert (H3 : 0 <= a * (a * a) <= b * (b * b)) by (split; nra).
  nra.
Qed.

Lemma schlick_R0_range (IoR : R) :
  0 < IoR -> 0 <= (1 - IoR) / (1 + IoR) * ((1 - IoR) / (1 + IoR)) < 1.
Proof.
  intros Hn.
  assert (Hinv : 0 < / (1 + IoR)) by (apply Rinv_0_lt_compat; lra).
  assert (Hone : (1 + IoR) * / (1 + IoR) = 1) by (apply Rinv_r; lra).
  set (q := (1 - IoR) / (1 + IoR)).
  assert (Hq : -1 < q < 1) by (unfold q, Rdiv; split; nra).
  split; nra.
Qed.

(** X6: for every [IoR > 0], Schlick's approximation is non-increasing in
    the cosine over [[0,1]] and stays between its value at normal incidence
    [R0 = ((1 - IoR)/(1 + IoR))^2] and 1. *)
Theorem dielectricFresnelSchlick_monotone (c1 c2 IoR : R) :
  0 < IoR -> 0 <= c1 <= c2 -> c2 <= 1 ->
  (1 - IoR) / (1 + IoR) * ((1 - IoR) / (1 + IoR))
  <= dielectricFresnelSchlick c2 IoR
  <= dielectricFresnelSchlick c1 IoR
  /\ dielectricFresnelSchlick c1 IoR <= 1.
Proof.
  intros Hn Hc H1. unfold dielectricFresnelSchlick. cbv zeta.
  pose proof (schlick_R0_range IoR Hn) as HR0.
  set (R0 := (1 - IoR) / (1 + IoR) * ((1 - IoR) / (1 + IoR))) in *.
  set (a := 1 - c2). set (b := 1 - c1).
  assert (Hab : 0 <= a <= b) by (unfold a, b; lra).
  assert (Hb1 : 0 <= b <= 1) by (unfold b; lra).
  pose proof (fifth_power_monotone a b Hab) as H5.
  pose proof (fifth_power_monotone 0 a ltac:(lra)) as Ha0.
  pose proof (fifth_power_monotone b 1 Hb1) as Hb5.
  replace ((1 - R0) * a * (a * a) * (a * a))
    with ((1 - R0) * (a * (a * a) * (a * a))) by ring.
  replace ((1 - R0) * b * (b * b) * (b * b))
    with ((1 - R0) * (b * (b * b) * (b * b))) by ring.
  set (pa := a * (a * a) * (a * a)) in *.
  set (pb := b * (b * b) * (b * b)) in *.
  repeat split; nra.
Qed.

Lemma dielectricFresnelSchlick_monotone_witness :
  dielectricFresnelSchlick 0.75 1.5 <= dielectricFresnelSchlick 0.25 1.5.
Proof.
  pose proof (dielectricFresnelSchlick_monotone 0.25 0.75 1.5) as W.
  apply W; lra.
Defined.

(** X7: Schlick's approximation does not tell the two sides of an interface
    apart: for [IoR > 0] the relative indices [IoR] and [1 / IoR] give the
    same reflectance at every cosine. *)
Theorem dielectricFresnelSchlick_reciprocal_index (VdH IoR : R) :
  0 < IoR ->
  dielectricFresnelSchlick VdH (1 / IoR) = dielectricFresnelSchlick VdH IoR.
Proof.
  intros Hn. unfold dielectricFresnelSchlick. cbv zeta.
  replace ((1 - 1 / IoR) / (1 + 1 / IoR)) with (- ((1 - IoR) / (1 + IoR)))
    by (field; lra).
  ring.
Qed.

Lemma dielectricFresnelSchlick_reciprocal_index_witness :
  dielectricFresnelSchlick 0.5 (1 / 1.5) = dielectricFresnelSchlick 0.5 1.5.
Proof. apply (dielectricFresnelSchlick_reciprocal_index 0.5 1.5). lra. Defined.

(** X8: with both cosines non-negative and not both zero, and [IoR > 0],
    [dielectricFresnelFast] returns a value in [[0,1]]. *)
Theorem dielectricFresnelFast_in_unit_interval (NdE NdL IoR : R) :
  0 < IoR -> 0 <= NdE -> 0 <= NdL -> 0 < NdE + NdL ->
  0 <= dielectricFresnelFast NdE NdL IoR <= 1.
Proof.
  intros Hn He Hl Hsum. unfold dielectricFresnelFast. cbv zeta.
  assert (Ha : 0 <= IoR * NdL) by nra.
  assert (Hb : 0 <= IoR * NdE) by nra.
  assert (Hs : 0 < NdE + IoR * NdL).
  { destruct (Rle_lt_dec NdE 0); [| lra].
    assert (0 < NdL) by lra. nra. }
  assert (Hp : 0 < IoR * NdE + NdL).
  { destruct (Rle_lt_dec NdL 0); [| lra].
    assert (0 < NdE) by lra. nra. }
  pose proof (square_le_1 _ (contrast_ratio_bounds NdE (IoR * NdL) He Ha Hs)).
  pose proof (square_le_1 _ (contrast_ratio_bounds (IoR * NdE) NdL Hb Hl Hp)).
  lra.
Qed.

Lemma dielectricFresnelFast_in_unit_interval_witness :
  0 <= dielectricFresnelFast 0.5 0.8 1.5 <= 1.
Proof. apply (dielectricFresnelFast_in_unit_interval 0.5 0.8 1.5); lra. Defined.

(** X9: [dielectricFresnelFast] is reciprocal: exchanging the two cosines
    and inverting the relative index (the same interface crossed the other
    way) gives the same reflectance. *)
Theorem dielectricFresnelFast_reciprocal (NdE NdL IoR : R) :
  IoR <> 0 -> NdE + IoR * NdL <> 0 -> IoR * NdE + NdL <> 0 ->
  dielectricFresnelFast NdL NdE (1 / IoR) = dielectricFresnelFast NdE NdL IoR.
Proof.
  intros Hn Hs Hp. unfold dielectricFresnelFast. cbv zeta.
  replace ((NdL - 1 / IoR * NdE) / (NdL + 1 / IoR * NdE))
    with (- ((NdE - IoR * NdL) / (NdE + IoR * NdL))).
  - replace ((1 / IoR * NdL - NdE) / (1 / IoR * NdL + NdE))
      with (- ((IoR * NdE - NdL) / (IoR * NdE + NdL))).
    + ring.
    + field. split; [exact Hn |]. intros F. apply Hp. lra.
  - field. split; [exact Hn |]. intros F. apply Hs. lra.
Qed.

Lemma dielectricFresnelFast_reciprocal_witness :
  dielectricFresnelFast 0.8 0.5 (1 / 1.5) = dielectricFresnelFast 0.5 0.8 1.5.
Proof. apply (dielectricFresnelFast_reciprocal 0.5 0.8 1.5); lra. Defined.

(** The refracted cosine of a view direction that enters the medium. *)
Lemma refracted_cosine (NdE IoR : R) :
  0 < IoR -> 0 <= NdE <= 1 ->
  0 < 1 - 1 / IoR * (1 / IoR) * (1 - NdE * NdE) ->
  let t := sqrt (1 - 1 / IoR * (1 / IoR) * (1 - NdE * NdE)) in
  0 < t /\ IoR * IoR * (t * t - NdE * NdE) = (IoR * IoR - 1) * (1 - NdE * NdE).
Proof.
  intros Hn Hc Hrad. cbv zeta. split; [apply sqrt_lt_R0; exact Hrad |].
  rewrite sqrt_sqrt by lra. field. lra.
Qed.

(** X10: for a view direction entering the medium ([0 <= NdE <= 1],
    [IoR > 0], no total internal reflection) the result of
    [dielectricFresnel] is at least that of [dielectricFresnelFast] taken at
    the refracted cosine [NdL = sqrt(1 - (1 - NdE^2) / IoR^2)]. *)
Theorem dielectricFresnelFast_below_dielectricFresnel (NdE IoR : R) :
  0 < IoR -> 0 <= NdE <= 1 ->
  0 < 1 - 1 / IoR * (1 / IoR) * (1 - NdE * NdE) ->
  let NdL := sqrt (1 - 1 / IoR * (1 / IoR) * (1 - NdE * NdE)) in
  dielectricFresnelFast NdE NdL IoR <= dielectricFresnel NdE IoR.
Proof.
  intros Hn Hc Hrad. cbv zeta.
  rewrite (dielectricFresnel_entering NdE IoR Hn (proj1 Hc) Hrad).
  destruct (refracted_cosine NdE IoR Hn Hc Hrad) as [Ht Hsnell].
  unfold dielectricFresnelFast. cbv zeta.
  set (t := sqrt (1 - 1 / IoR * (1 / IoR) * (1 - NdE * NdE))) in *.
  set (c := NdE) in *. set (n := IoR) in *.
  assert (Hs : 0 < c + n * t) by nra.
  assert (Hp : 0 < n * c + t) by nra.
  set (Rs := (c - n * t) / (c + n * t)).
  set (Rp := (n * c - t) / (n * c + t)).
  assert (Hdiff : Rs * Rs - Rp * Rp
                  = 4 * (n * c * t) * ((t * t - c * c) * (n * n - 1))
                    / ((c + n * t) * (n * c + t) * ((c + n * t) * (n * c + t)))).
  { unfold Rs, Rp. field. lra. }
  assert (Hsign : 0 <= (t * t - c * c) * (n * n - 1)).
  { assert (Hn2 : 0 < n * n) by nra.
    assert (H1 : n * n * ((t * t - c * c) * (n * n - 1))
                 = (n * n - 1) * (n * n - 1) * (1 - c * c))
      by (rewrite <- Rmult_assoc, Hsnell; ring).
    assert (H2 : 0 <= (n * n - 1) * (n * n - 1) * (1 - c * c)).
    { apply Rmult_le_pos; [apply square_nonneg | nra]. }
    rewrite <- H1 in H2.
    apply (Rmult_le_reg_l (n * n)); [exact Hn2 | lra]. }
  assert (Hnum : 0 <= 4 * (n * c * t) * ((t * t - c * c) * (n * n - 1))).
  { apply Rmult_le_pos; [| exact Hsign].
    assert (0 <= n * c * t) by (apply Rmult_le_pos; nra). lra. }
  assert (Hden : 0 < (c + n * t) * (n * c + t) * ((c + n * t) * (n * c + t))).
  { assert (0 < (c + n * t) * (n * c + t)) by (apply Rmult_lt_0_compat; lra).
    now apply Rmult_lt_0_compat. }
  assert (Hge : 0 <= Rs * Rs - Rp * Rp).
  { rewrite Hdiff. unfold Rdiv. apply Rmult_le_pos; [exact Hnum |].
    left. now apply Rinv_0_lt_compat. }
  lra.
Qed.

Lemma dielectricFresnelFast_below_dielectricFresnel_witness :
  dielectricFresnelFast 1 (sqrt (1 - 1 / 1.5 * (1 / 1.5) * (1 - 1 * 1))) 1.5
  <= dielectricFresnel 1 1.5.
Proof.
  apply (dielectricFresnelFast_below_dielectricFresnel 1 1.5); lra.
Defined.

(** ** Distribution functions *)

(** Cauchy-Schwarz for two unit vectors. *)
Lemma unit_dot_bounds (a b : vec3) :
  V3.dot a a = 1 -> V3.dot b b = 1 -> -1 <= V3.dot a b <= 1.
Proof.
  destruct a as [a1 a2 a3], b as [b1 b2 b3]. vec_compute. intros Ha Hb.
  assert (Hlag : (a1 * b1 + a2 * b2 + a3 * b3) * (a1 * b1 + a2 * b2 + a3 * b3)
                 <= (a1 * a1 + a2 * a2 + a3 * a3) * (b1 * b1 + b2 * b2 + b3 * b3)).
  { pose proof (square_nonneg (a1 * b2 - a2 * b1)).
    pose proof (square_nonneg (a1 * b3 - a3 * b1)).
    pose proof (square_nonneg (a2 * b3 - a3 * b2)).
    lra. }
  rewrite Ha, Hb in Hlag. split; nra.
Qed.

(** X11: for unit vectors the Lambertian term lies in [[0, 1/pi]]; it is
    exactly 0 when the light is at or below the horizon of the shading normal
    ([dot(N, L) <= 0]) and positive otherwise. *)
Theorem evalDiffuseBSDF_range (shadeNormal lightDir : vec3) :
  V3.dot shadeNormal shadeNormal = 1 -> V3.dot lightDir lightDir = 1 ->
  0 <= evalDiffuseBSDF shadeNormal lightDir <= / PI
  /\ (V3.dot shadeNormal lightDir <= 0 -> evalDiffuseBSDF shadeNormal lightDir = 0)
  /\ (0 < V3.dot shadeNormal lightDir -> 0 < evalDiffuseBSDF shadeNormal lightDir).
Proof.
  intros HN HL. unfold evalDiffuseBSDF, M_1_PIf, max.
  pose proof (unit_dot_bounds _ _ HN HL) as Hd.
  assert (Hpi : 0 < / PI) by (apply Rinv_0_lt_compat, PI_RGT_0).
  set (d := V3.dot shadeNormal lightDir) in *.
  repeat split.
  - apply Rmult_le_pos; [apply Rmax_l | lra].
  - rewrite <- (Rmult_1_l (/ PI)) at 2.
    apply Rmult_le_compat_r; [lra |]. apply Rmax_lub; lra.
  - intros H. rewrite Rmax_left by lra. ring.
  - intros H. rewrite Rmax_right by lra. now apply Rmult_lt_0_compat.
Qed.

Lemma evalDiffuseBSDF_range_witness :
  0 <= evalDiffuseBSDF (v3 0 0 1) (v3 0.6 0 0.8) <= / PI.
Proof.
  apply (evalDiffuseBSDF_range (v3 0 0 1) (v3 0.6 0 0.8)); vec_compute; lra.
Defined.

Lemma product3_pos (a b c : R) : 0 < a -> 0 < b -> 0 < c -> 0 < a * b * c.
Proof. intros. repeat apply Rmult_lt_0_compat; assumption. Qed.

Lemma product4_pos (a b c d : R) :
  0 < a -> 0 < b -> 0 < c -> 0 < d -> 0 < a * b * c * d.
Proof. intros. repeat apply Rmult_lt_0_compat; assumption. Qed.

Lemma product5_pos (a b c d e : R) :
  0 < a -> 0 < b -> 0 < c -> 0 < d -> 0 < e -> 0 < a * b * c * d * e.
Proof. intros. repeat apply Rmult_lt_0_compat; assumption. Qed.

Lemma isotropic_GGX_denominator_pos (c a2 : R) :
  0 <= c <= 1 -> 0 < a2 -> 0 < (c * a2 - c) * c + 1.
Proof.
  intros Hc Ha.
  replace ((c * a2 - c) * c + 1) with (a2 * (c * c) + (1 - c * c)) by ring.
  destruct (Req_dec c 1) as [E | E].
  - rewrite E. lra.
  - assert (0 < 1 - c * c) by nra.
    assert (0 <= a2 * (c * c)) by (apply Rmult_le_pos; nra). lra.
Qed.

Lemma anisotropy_ratio_pos (a b : R) :
  0 < a -> 0 < b -> 0 < (if a <? b then a / b else 1).
Proof.
  intros Ha Hb. destruct (a <? b); [| lra].
  apply Rdiv_lt_0_compat; lra.
Qed.

Lemma anisotropic_Beckmann_pos (H : vec3) (rgns : vec2) :
  0 < V2.x rgns -> 0 < V2.y rgns -> V3.z H <> 0 ->
  0 < Anisotropic.evalBeckmannDistribution H rgns.
Proof.
  intros Hx Hy Hz.
  assert (Hpi : 0 < PI) by apply PI_RGT_0.
  unfold Anisotropic.evalBeckmannDistribution, M_PIf. cbv zeta.
  apply Rdiv_lt_0_compat; [apply exp_pos |].
  assert (Hd : 0 < V3.z H * V3.z H) by nra.
  apply product5_pos; assumption.
Qed.

Lemma anisotropic_GGX_pos (H : vec3) (rgns : vec2) :
  0 < V2.x rgns -> 0 < V2.y rgns -> V3.z H <> 0 ->
  0 < Anisotropic.evalGGXDistribution H rgns.
Proof.
  intros Hx Hy Hz.
  assert (Hpi : 0 < PI) by apply PI_RGT_0.
  unfold Anisotropic.evalGGXDistribution, M_PIf. cbv zeta.
  pose proof (anisotropy_ratio_pos _ _ Hy Hx) as HU.
  pose proof (anisotropy_ratio_pos _ _ Hx Hy) as HV.
  set (aU := if V2.y rgns <? V2.x rgns then V2.y rgns / V2.x rgns else 1) in *.
  set (aV := if V2.x rgns <? V2.y rgns then V2.x rgns / V2.y rgns else 1) in *.
  assert (Hm : 0 < min (V2.x rgns) (V2.y rgns))
    by (unfold min; apply Rmin_glb_lt; lra).
  set (r := min (V2.x rgns) (V2.y rgns)) in *.
  destruct H as [hx hy hz]. vec_compute. cbn [V3.z] in Hz.
  assert (HiU : 0 < / (aU * aU)) by (apply Rinv_0_lt_compat; nra).
  assert (HiV : 0 < / (aV * aV)) by (apply Rinv_0_lt_compat; nra).
  assert (Hroot : 0 < hz * hz * r * r + (hx / (aU * aU) * hx + hy / (aV * aV) * hy)).
  { assert (0 < hz * hz * r * r).
    { assert (0 < hz * hz) by nra. apply product3_pos; assumption. }
    assert (0 <= hx / (aU * aU) * hx).
    { replace (hx / (aU * aU) * hx) with (hx * hx * / (aU * aU))
        by (unfold Rdiv; ring).
      apply Rmult_le_pos; [apply square_nonneg | lra]. }
    assert (0 <= hy / (aV * aV) * hy).
    { replace (hy / (aV * aV) * hy) with (hy * hy * / (aV * aV))
        by (unfold Rdiv; ring).
      apply Rmult_le_pos; [apply square_nonneg | lra]. }
    lra. }
  apply Rdiv_lt_0_compat; [nra |].
  apply product5_pos; assumption.
Qed.

(** X12: the four evaluators of a normal distribution never return a
    negative value when the roughness is positive and the half vector is not
    orthogonal to the normal. *)
Theorem distribution_evaluators_nonnegative (N H : vec3) (roughness : R)
    (rgns : vec2) :
  0 < roughness -> 0 < V2.x rgns -> 0 < V2.y rgns ->
  V3.dot N H <> 0 -> V3.z H <> 0 ->
  0 <= Isotropic.evalBeckmannDistribution N H roughness
  /\ 0 <= Anisotropic.evalBeckmannDistribution H rgns
  /\ 0 <= Isotropic.evalGGXDistribution N H roughness
  /\ 0 <= Anisotropic.evalGGXDistribution H rgns.
Proof.
  intros Hr Hx Hy HNH Hz.
  assert (Hpi : 0 < PI) by apply PI_RGT_0.
  repeat split.
  - unfold Isotropic.evalBeckmannDistribution, M_PIf. cbv zeta.
    apply Rlt_le, Rdiv_lt_0_compat; [apply exp_pos |].
    assert (Hd : 0 < V3.dot N H * V3.dot N H) by nra.
    assert (Ha : 0 < roughness * roughness) by nra.
    apply product4_pos; assumption.
  - now apply Rlt_le, anisotropic_Beckmann_pos.
  - unfold Isotropic.evalGGXDistribution, M_PIf. cbv zeta.
    pose proof (saturate_range (V3.dot N H)) as Hc.
    pose proof (isotropic_GGX_denominator_pos _ (roughness * roughness) Hc
                  ltac:(nra)) as Hd.
    apply Rlt_le, Rdiv_lt_0_compat; [nra |].
    apply product3_pos; assumption.
  - now apply Rlt_le, anisotropic_GGX_pos.
Qed.

Lemma distribution_evaluators_nonnegative_witness :
  0 <= Isotropic.evalBeckmannDistribution (v3 0 0 1) (v3 0.6 0 0.8) 0.5
  /\ 0 <= Anisotropic.evalBeckmannDistribution (v3 0.6 0 0.8) (v2 0.5 0.25)
  /\ 0 <= Isotropic.evalGGXDistribution (v3 0 0 1) (v3 0.6 0 0.8) 0.5
  /\ 0 <= Anisotropic.evalGGXDistribution (v3 0.6 0 0.8) (v2 0.5 0.25).
Proof.
  apply (distribution_evaluators_nonnegative
           (v3 0 0 1) (v3 0.6 0 0.8) 0.5 (v2 0.5 0.25));
    vec_compute; lra.
Defined.

(** X13: for every roughness [r > 0] and every unit half vector [H] with
    [H.z <> 0], the isotropic [evalBeckmannDistribution(N, H, r)] at
    [N = (0,0,1)] equals the anisotropic [evalBeckmannDistribution(H, (r, r))]. *)
Theorem evalBeckmannDistribution_isotropic_is_anisotropic (H : vec3) (r : R) :
  0 < r ->
  V3.x H * V3.x H + V3.y H * V3.y H + V3.z H * V3.z H = 1 ->
  V3.z H <> 0 ->
  Isotropic.evalBeckmannDistribution (v3 0 0 1) H r
  = Anisotropic.evalBeckmannDistribution H (v2 r r).
Proof.
  destruct H as [hx hy hz]. vec_compute. intros Hr Hunit Hz.
  unfold Isotropic.evalBeckmannDistribution, Anisotropic.evalBeckmannDistribution,
    Isotropic.evalBeckmannDistribution_exponent,
    Anisotropic.evalBeckmannDistribution_exponent.
  vec_compute.
  replace (0 * hx + 0 * hy + 1 * hz) with hz by ring.
  assert (Hzz : 0 < hz * hz) by nra.
  assert (He : (1 - hz * hz) / (r * r * (hz * hz))
               = (hx / (r * r) * hx + hy / (r * r) * hy) / (hz * hz)).
  { replace (1 - hz * hz) with (hx * hx + hy * hy) by lra. field. lra. }
  assert (Hpos : 0 <= (1 - hz * hz) / (r * r * (hz * hz))).
  { apply Rmult_le_pos; [nra |]. left. apply Rinv_0_lt_compat.
    apply Rmult_lt_0_compat; [nra | exact Hzz]. }
  unfold max. rewrite Rmax_right by exact Hpos. rewrite He.
  f_equal. ring.
Qed.

Lemma evalBeckmannDistribution_isotropic_is_anisotropic_witness :
  Isotropic.evalBeckmannDistribution (v3 0 0 1) (v3 0.6 0 0.8) 0.5
  = Anisotropic.evalBeckmannDistribution (v3 0.6 0 0.8) (v2 0.5 0.5).
Proof.
  apply (evalBeckmannDistribution_isotropic_is_anisotropic (v3 0.6 0 0.8) 0.5);
    vec_compute; lra.
Defined.

(** The anisotropic GGX evaluator when the second roughness is the smaller
    one. *)
Lemma evalGGXDistribution_second_axis_smaller (H : vec3) (rx ry : R) :
  0 < ry -> ry <= rx ->
  0 < V3.x H * V3.x H + V3.y H * V3.y H + V3.z H * V3.z H ->
  Anisotropic.evalGGXDistribution H (v2 rx ry)
  = trowbridgeReitz H (ry * ry / rx) ry.
Proof.
  destruct H as [hx hy hz]. vec_compute. intros Hy Hle Hnz.
  unfold Anisotropic.evalGGXDistribution, trowbridgeReitz, M_PIf. vec_compute.
  rewrite (Rltb_false rx ry) by lra.
  unfold min. rewrite Rmin_right by lra.
  assert (HaU : (if ry <? rx then ry / rx else 1) = ry / rx).
  { destruct (Rltb_spec ry rx) as [L | L]; [reflexivity |].
    assert (E : rx = ry) by lra. rewrite E. field. lra. }
  rewrite HaU.
  assert (HW : 0 < hx * hx * (rx * rx) + hy * hy * (ry * ry)
                   + hz * hz * (ry * ry * (ry * ry))).
  { assert (Hx2 : 0 < rx * rx) by nra. assert (Hy2 : 0 < ry * ry) by nra.
    assert (Hy4 : 0 < ry * ry * (ry * ry)) by nra.
    pose proof (square_nonneg hx). pose proof (square_nonneg hy).
    pose proof (square_nonneg hz).
    destruct (Req_dec hx 0) as [Ex | Ex]; [| assert (0 < hx * hx) by nra; nra].
    destruct (Req_dec hy 0) as [Ey | Ey]; [| assert (0 < hy * hy) by nra; nra].
    rewrite Ex, Ey in *. assert (0 < hz * hz) by lra. nra. }
  remember (hx * hx * (rx * rx) + hy * hy * (ry * ry)
            + hz * hz * (ry * ry * (ry * ry))) as W.
  replace (hz * hz * ry * ry + (hx / (ry / rx * (ry / rx)) * hx + hy / (1 * 1) * hy))
    with (W / (ry * ry)) by (rewrite HeqW; field; lra).
  replace (hx * hx / (ry * ry / rx * (ry * ry / rx)) + hy * hy / (ry * ry) + hz * hz)
    with (W / (ry * ry * (ry * ry))) by (rewrite HeqW; field; lra).
  field. repeat split; try lra. apply PI_neq0.
Qed.

(** The anisotropic GGX evaluator is unchanged when the two tangent axes are
    exchanged, in the half vector and in the roughness. *)
Lemma evalGGXDistribution_axes_exchanged (hx hy hz rx ry : R) :
  Anisotropic.evalGGXDistribution (v3 hy hx hz) (v2 ry rx)
  = Anisotropic.evalGGXDistribution (v3 hx hy hz) (v2 rx ry).
Proof.
  unfold Anisotropic.evalGGXDistribution, min. vec_compute.
  rewrite (Rmin_comm ry rx).
  set (aU := if ry <? rx then ry / rx else 1).
  set (aV := if rx <? ry then rx / ry else 1).
  f_equal; ring.
Qed.

Lemma trowbridgeReitz_axes_exchanged (hx hy hz ax ay : R) :
  trowbridgeReitz (v3 hy hx hz) ay ax = trowbridgeReitz (v3 hx hy hz) ax ay.
Proof. unfold trowbridgeReitz. vec_compute. f_equal. ring. Qed.

(** X14: for positive roughness and a non-zero half vector, the anisotropic
    [evalGGXDistribution(H, (rx, ry))] is the Trowbridge-Reitz distribution
    whose roughness along the axis of the smaller component is that
    component, and along the other axis is [min^2 / max]: roughness
    [(ry^2/rx, ry)] when [ry <= rx], and [(rx, rx^2/ry)] when [rx <= ry]. *)
Theorem evalGGXDistribution_effective_roughness (H : vec3) (rx ry : R) :
  0 < rx -> 0 < ry ->
  0 < V3.x H * V3.x H + V3.y H * V3.y H + V3.z H * V3.z H ->
  (ry <= rx ->
   Anisotropic.evalGGXDistribution H (v2 rx ry)
   = trowbridgeReitz H (ry * ry / rx) ry)
  /\ (rx <= ry ->
      Anisotropic.evalGGXDistribution H (v2 rx ry)
      = trowbridgeReitz H rx (rx * rx / ry)).
Proof.
  intros Hx Hy Hnz. split; intros Hle.
  - now apply evalGGXDistribution_second_axis_smaller.
  - destruct H as [hx hy hz]. cbn [V3.x V3.y V3.z] in Hnz.
    rewrite <- evalGGXDistribution_axes_exchanged.
    rewrite evalGGXDistribution_second_axis_smaller;
      [apply trowbridgeReitz_axes_exchanged | exact Hx | exact Hle |].
    cbn [V3.x V3.y V3.z]. lra.
Qed.

Lemma evalGGXDistribution_effective_roughness_witness :
  Anisotropic.evalGGXDistribution (v3 0.6 0 0.8) (v2 1 0.5)
  = trowbridgeReitz (v3 0.6 0 0.8) (0.5 * 0.5 / 1) 0.5
  /\ Anisotropic.evalGGXDistribution (v3 0.6 0 0.8) (v2 0.5 1)
     = trowbridgeReitz (v3 0.6 0 0.8) 0.5 (0.5 * 0.5 / 1).
Proof.
  split.
  - apply (proj1 (evalGGXDistribution_effective_roughness (v3 0.6 0 0.8) 1 0.5
                    ltac:(lra) ltac:(lra) ltac:(vec_compute; lra))). lra.
  - apply (proj2 (evalGGXDistribution_effective_roughness (v3 0.6 0 0.8) 0.5 1
                    ltac:(lra) ltac:(lra) ltac:(vec_compute; lra))). lra.
Defined.

(** With unequal roughness this is not the Trowbridge-Reitz distribution of
    the roughness pair itself: for [H = (0.6, 0, 0.8)] and roughness
    [(1, 0.5)] the evaluator returns [25 / (128 pi)], the distribution with
    roughness [(1, 0.5)] is [2 / pi]. *)
Example evalGGXDistribution_unequal_roughness :
  Anisotropic.evalGGXDistribution (v3 0.6 0 0.8) (v2 1 0.5) = 25 / (128 * PI)
  /\ trowbridgeReitz (v3 0.6 0 0.8) 1 0.5 = 2 / PI.
Proof.
  pose proof PI_neq0 as Hpi. split.
  - unfold Anisotropic.evalGGXDistribution, M_PIf, min. vec_compute.
    rewrite Rltb_true, Rltb_false by lra. rewrite Rmin_right by lra.
    replace (0.8 * 0.8 * 0.5 * 0.5 + (0.6 / (0.5 / 1 * (0.5 / 1)) * 0.6 + 0 / (1 * 1) * 0))
      with (8 / 5) by lra.
    replace (0.5 * 0.5) with (1 / 4) by lra.
    replace (0.5 / 1) with (1 / 2) by lra. field. exact Hpi.
  - unfold trowbridgeReitz. vec_compute.
    replace (0.6 * 0.6 / (1 * 1) + 0 * 0 / (0.5 * 0.5) + 0.8 * 0.8) with 1 by lra.
    replace 0.5 with (1 / 2) by lra. field. exact Hpi.
Qed.

(** Both anisotropic evaluators are unchanged when the two tangent axes are
    exchanged, in the half vector and in the roughness pair. *)
Lemma anisotropic_evaluators_exchange_axes (hx hy hz rx ry : R) :
  Anisotropic.evalGGXDistribution (v3 hy hx hz) (v2 ry rx)
  = Anisotropic.evalGGXDistribution (v3 hx hy hz) (v2 rx ry)
  /\ Anisotropic.evalBeckmannDistribution (v3 hy hx hz) (v2 ry rx)
     = Anisotropic.evalBeckmannDistribution (v3 hx hy hz) (v2 rx ry).
Proof.
  split; [apply evalGGXDistribution_axes_exchanged |].
  unfold Anisotropic.evalBeckmannDistribution,
    Anisotropic.evalBeckmannDistribution_exponent. vec_compute.
  f_equal; [f_equal; f_equal; f_equal; ring | ring].
Qed.

(** ** The two Beckmann helpers *)

(** X15: [beckmannStdDevAngle] is strictly increasing in the roughness; for
    a non-negative roughness the angle lies in [[0, pi/2)] and its squared
    tangent is half the squared roughness. *)
Theorem beckmannStdDevAngle_monotone_and_bounded (r1 r2 : R) :
  0 <= r1 -> r1 < r2 ->
  beckmannStdDevAngle r1 < beckmannStdDevAngle r2
  /\ 0 <= beckmannStdDevAngle r1 < PI / 2
  /\ tan (beckmannStdDevAngle r1) * tan (beckmannStdDevAngle r1) = r1 * r1 / 2.
Proof.
  intros H0 Hlt. unfold beckmannStdDevAngle.
  assert (Hs : 0 < sqrt 0.5) by (apply sqrt_lt_R0; lra).
  assert (Hss : sqrt 0.5 * sqrt 0.5 = 0.5) by (apply sqrt_sqrt; lra).
  repeat split.
  - apply atan_increasing. nra.
  - destruct (Req_dec r1 0) as [E | E].
    + rewrite E, Rmult_0_r, atan_0. lra.
    + left. rewrite <- atan_0. apply atan_increasing. nra.
  - apply atan_bound.
  - rewrite tan_atan. nra.
Qed.

Lemma beckmannStdDevAngle_monotone_and_bounded_witness :
  beckmannStdDevAngle 0.25 < beckmannStdDevAngle 0.5.
Proof.
  apply (beckmannStdDevAngle_monotone_and_bounded 0.25 0.5); lra.
Defined.

Lemma clamp_unit (a : R) :
  0 <= clamp a 0 1 <= 1
  /\ (0 <= a <= 1 -> clamp a 0 1 = a)
  /\ (a <= 0 -> clamp a 0 1 = 0).
Proof.
  unfold clamp. fold (saturate a).
  split; [apply saturate_range |].
  split; [apply saturate_id | apply saturate_below].
Qed.

(** The blend factor as a polynomial of the square root of the smoothness. *)
Lemma lerpFactor_of_root (roughness : R) :
  0 <= roughness <= 1 ->
  let q := sqrt (1 - roughness) in
  0 <= q <= 1
  /\ getBeckmannDominantDir_lerpFactor roughness = q * q * (q + 1 - q * q).
Proof.
  intros Hr. cbv zeta. unfold getBeckmannDominantDir_lerpFactor. cbv zeta.
  destruct (clamp_unit (1 - roughness)) as [_ [Hid _]].
  rewrite Hid by lra.
  assert (Hqq : sqrt (1 - roughness) * sqrt (1 - roughness) = 1 - roughness)
    by (apply sqrt_sqrt; lra).
  assert (Hq0 : 0 <= sqrt (1 - roughness)) by apply sqrt_pos.
  assert (Hq1 : sqrt (1 - roughness) <= 1).
  { pose proof (sqrt_le_1_alt (1 - roughness) 1 ltac:(lra)) as H.
    now rewrite sqrt_1 in H. }
  split; [lra |].
  set (q := sqrt (1 - roughness)) in *.
  replace (q + roughness) with (q + 1 - (1 - roughness)) by ring.
  rewrite <- Hqq. ring.
Qed.

Lemma dominant_polynomial_monotone (a b : R) :
  0 <= a <= b -> b <= 1 ->
  a * a * (a + 1 - a * a) <= b * b * (b + 1 - b * b).
Proof.
  intros Hab Hb.
  assert (Hfac : b * b * (b + 1 - b * b) - a * a * (a + 1 - a * a)
                 = (b - a) * (a * a + a * b + b * b
                              + (a + b) * (1 - a * a - b * b))) by ring.
  assert (Hinner : 0 <= a * a + a * b + b * b + (a + b) * (1 - a * a - b * b)).
  { assert (Ha2 : a * a <= a) by nra. assert (Hb2 : b * b <= b) by nra.
    assert (H1 : (a + b) * (a * a + b * b) <= (a + b) * (a + b))
      by (apply Rmult_le_compat_l; lra).
    assert (H2 : 0 <= a + b - a * b) by nra.
    nra. }
  assert (0 <= (b - a) * (a * a + a * b + b * b + (a + b) * (1 - a * a - b * b)))
    by (apply Rmult_le_pos; lra).
  lra.
Qed.

(** X16: [getBeckmannDominantDir] blends from the mirror direction to the
    normal as the roughness grows: for a roughness in [[0,1]] the blend
    factor lies in [[0,1]] and does not increase with the roughness; at
    roughness 0 the result is the mirror direction, at roughness 1 and above
    it is the normal. *)
Theorem getBeckmannDominantDir_blend (N Rm : vec3) (r1 r2 : R) :
  0 <= r1 <= r2 -> r2 <= 1 ->
  0 <= getBeckmannDominantDir_lerpFactor r2
    <= getBeckmannDominantDir_lerpFactor r1
  /\ getBeckmannDominantDir_lerpFactor r1 <= 1
  /\ getBeckmannDominantDir N Rm 0 = Rm
  /\ (forall r : R, 1 <= r -> getBeckmannDominantDir N Rm r = N).
Proof.
  intros Hr H1.
  destruct (lerpFactor_of_root r1 ltac:(lra)) as [Hq1 E1].
  destruct (lerpFactor_of_root r2 ltac:(lra)) as [Hq2 E2].
  cbv zeta in *.
  assert (Hq : sqrt (1 - r2) <= sqrt (1 - r1)) by (apply sqrt_le_1_alt; lra).
  pose proof (dominant_polynomial_monotone _ _ (conj (proj1 Hq2) Hq) (proj2 Hq1)) as Hm.
  pose proof (dominant_polynomial_monotone 0 _ (conj (Rle_refl 0) (proj1 Hq2)) (proj2 Hq2)) as Hlo.
  pose proof (dominant_polynomial_monotone _ 1 (conj (proj1 Hq1) (proj2 Hq1)) (Rle_refl 1)) as Hhi.
  rewrite E1, E2. repeat split; try lra.
  - unfold getBeckmannDominantDir. cbv zeta.
    destruct (lerpFactor_of_root 0 ltac:(lra)) as [_ E0]. cbv zeta in E0.
    rewrite E0. replace (1 - 0) with 1 by ring. rewrite sqrt_1.
    destruct Rm as [a b c]. unfold mix. vec_compute. f_equal; ring.
  - intros r Hr1. unfold getBeckmannDominantDir, getBeckmannDominantDir_lerpFactor.
    cbv zeta. destruct (clamp_unit (1 - r)) as [_ [_ Hz]].
    rewrite Hz by lra. rewrite Rmult_0_l.
    destruct N as [a b c]. unfold mix. vec_compute. f_equal; ring.
Qed.

Lemma getBeckmannDominantDir_blend_witness :
  getBeckmannDominantDir_lerpFactor 0.75 <= getBeckmannDominantDir_lerpFactor 0.25
  /\ getBeckmannDominantDir (v3 0 0 1) (v3 0.6 0 0.8) 0 = v3 0.6 0 0.8.
Proof.
  pose proof (getBeckmannDominantDir_blend (v3 0 0 1) (v3 0.6 0 0.8) 0.25 0.75
                ltac:(lra) ltac:(lra)) as [[_ W1] [_ [W2 _]]].
  split; assumption.
Defined.

(** ** Shadowing and masking *)

(** The squared effective roughness of a unit direction is the average of
    the squared roughness components, weighted by the squared cosine and
    sine of the azimuth. *)
Lemma effectiveVisibleRoughness_squared (dir : vec3) (rghns : vec2) :
  V3.dot dir dir = 1 -> V3.z dir * V3.z dir < 1 ->
  exists w : R,
    0 <= w <= 1
    /\ effectiveVisibleRoughness dir rghns
       = sqrt (V2.x rghns * V2.x rghns * w + V2.y rghns * V2.y rghns * (1 - w)).
Proof.
  destruct dir as [dx dy dz], rghns as [rx ry]. vec_compute. intros Hu Hz.
  unfold effectiveVisibleRoughness, effectiveVisibleRoughness_divisor.
  vec_compute.
  assert (Hs : 0 < 1 - dz * dz) by lra.
  assert (Hinv : 0 < / (1 - dz * dz)) by now apply Rinv_0_lt_compat.
  exists (dx * dx * (1 / (1 - dz * dz))). split.
  - pose proof (square_nonneg dx). pose proof (square_nonneg dy).
    assert (Hone : (1 - dz * dz) * / (1 - dz * dz) = 1) by (apply Rinv_r; lra).
    unfold Rdiv. rewrite Rmult_1_l.
    split; [apply Rmult_le_pos; lra |].
    assert (dx * dx <= 1 - dz * dz) by lra. nra.
  - f_equal. f_equal.
    replace (dy * dy) with ((1 - dz * dz) - dx * dx) by lra.
    field. lra.
Qed.

Lemma weighted_average_bounds (a b w : R) :
  0 <= w <= 1 -> a <= b ->
  a <= a * w + b * (1 - w) <= b /\ a <= b * w + a * (1 - w) <= b.
Proof.
  intros Hw Hab.
  assert (H1 : 0 <= (b - a) * (1 - w)) by (apply Rmult_le_pos; lra).
  assert (H2 : 0 <= (b - a) * w) by (apply Rmult_le_pos; lra).
  repeat split; lra.
Qed.

(** The effective roughness is positive when both components are. *)
Lemma effectiveVisibleRoughness_pos (dir : vec3) (rghns : vec2) :
  V3.dot dir dir = 1 -> V3.z dir * V3.z dir < 1 ->
  0 < V2.x rghns -> 0 < V2.y rghns ->
  0 < effectiveVisibleRoughness dir rghns.
Proof.
  intros Hu Hz Hx Hy.
  destruct (effectiveVisibleRoughness_squared dir rghns Hu Hz) as [w [Hw E]].
  rewrite E. apply sqrt_lt_R0.
  assert (Hxx : 0 < V2.x rghns * V2.x rghns) by nra.
  assert (Hyy : 0 < V2.y rghns * V2.y rghns) by nra.
  destruct (Rle_lt_dec w (1 / 2)) as [L | L].
  - assert (0 <= V2.x rghns * V2.x rghns * w) by (apply Rmult_le_pos; lra).
    assert (0 < V2.y rghns * V2.y rghns * (1 - w))
      by (apply Rmult_lt_0_compat; lra).
    lra.
  - assert (0 < V2.x rghns * V2.x rghns * w) by (apply Rmult_lt_0_compat; lra).
    assert (0 <= V2.y rghns * V2.y rghns * (1 - w))
      by (apply Rmult_le_pos; lra).
    lra.
Qed.

(** With the same roughness on both axes the effective roughness is that
    roughness. *)
Lemma effectiveVisibleRoughness_isotropic (dir : vec3) (r : R) :
  V3.dot dir dir = 1 -> V3.z dir * V3.z dir < 1 -> 0 <= r ->
  effectiveVisibleRoughness dir (v2 r r) = r.
Proof.
  intros Hu Hz Hr.
  destruct (effectiveVisibleRoughness_squared dir (v2 r r) Hu Hz) as [w [_ E]].
  rewrite E. cbn [V2.x V2.y].
  replace (r * r * w + r * r * (1 - w)) with (r * r) by ring.
  now apply sqrt_square.
Qed.

(** X17: for a unit direction off the normal and non-negative roughness
    components, [effectiveVisibleRoughness] lies between the smaller and the
    larger component; with equal components it is that roughness. *)
Theorem effectiveVisibleRoughness_between_components (dir : vec3)
    (rghns : vec2) :
  V3.dot dir dir = 1 -> V3.z dir * V3.z dir < 1 ->
  0 <= V2.x rghns -> 0 <= V2.y rghns ->
  Rmin (V2.x rghns) (V2.y rghns)
  <= effectiveVisibleRoughness dir rghns
  <= Rmax (V2.x rghns) (V2.y rghns).
Proof.
  intros Hu Hz Hx Hy.
  destruct (effectiveVisibleRoughness_squared dir rghns Hu Hz) as [w [Hw E]].
  rewrite E. clear E.
  set (rx := V2.x rghns) in *. set (ry := V2.y rghns) in *.
  set (A := rx * rx * w + ry * ry * (1 - w)).
  assert (Hlo0 : 0 <= Rmin rx ry) by (apply Rmin_glb; assumption).
  assert (Hhi0 : 0 <= Rmax rx ry) by (apply Rle_trans with rx; [assumption | apply Rmax_l]).
  assert (Hboth : Rmin rx ry * Rmin rx ry <= A <= Rmax rx ry * Rmax rx ry).
  { unfold A. destruct (Rle_dec rx ry) as [L | L].
    - rewrite Rmin_left, Rmax_right by lra.
      assert (Hsq : rx * rx <= ry * ry) by (apply Rmult_le_compat; lra).
      destruct (weighted_average_bounds _ _ w Hw Hsq) as [Hb _]. exact Hb.
    - rewrite Rmin_right, Rmax_left by lra.
      assert (Hsq : ry * ry <= rx * rx) by (apply Rmult_le_compat; lra).
      destruct (weighted_average_bounds _ _ w Hw Hsq) as [_ Hb]. exact Hb. }
  destruct Hboth as [Hlo Hhi].
  split.
  - rewrite <- (sqrt_square (Rmin rx ry)) at 1 by exact Hlo0.
    now apply sqrt_le_1_alt.
  - rewrite <- (sqrt_square (Rmax rx ry)) at 1 by exact Hhi0.
    now apply sqrt_le_1_alt.
Qed.

Lemma effectiveVisibleRoughness_between_components_witness :
  Rmin 0.5 0.25 <= effectiveVisibleRoughness (v3 0.6 0 0.8) (v2 0.5 0.25)
  <= Rmax 0.5 0.25.
Proof.
  apply (effectiveVisibleRoughness_between_components (v3 0.6 0 0.8) (v2 0.5 0.25));
    vec_compute; lra.
Defined.

(** The GGX closed form of the masking term. *)
Lemma smith_GGX_form_range (x : R) : 0 < 2 / (1 + V2.length (v2 1 x)) <= 1.
Proof.
  unfold V2.length. vec_compute.
  assert (Hq : 1 <= sqrt (1 * 1 + x * x)).
  { pose proof (sqrt_le_1_alt 1 (1 * 1 + x * x)) as H.
    rewrite sqrt_1 in H. apply H. pose proof (square_nonneg x). lra. }
  set (q := sqrt (1 * 1 + x * x)) in *.
  assert (Hinv : 0 < / (1 + q)) by (apply Rinv_0_lt_compat; lra).
  assert (Hone : (1 + q) * / (1 + q) = 1) by (apply Rinv_r; lra).
  unfold Rdiv. split; nra.
Qed.

Lemma GSmith_GGX_range (NDFBeckmann : uint) (dir h : vec3) (rghns : vec2)
    (ndfType : uint) :
  ndfType <> NDFBeckmann ->
  0 <= GSmith NDFBeckmann dir h rghns ndfType <= 1.
Proof.
  intros Hty. unfold GSmith.
  destruct (_ <=? 0); [lra |]. cbv zeta.
  destruct (_ <=? 0); [lra |].
  apply N.eqb_neq in Hty. rewrite Hty.
  pose proof (smith_GGX_form_range
                (effectiveVisibleRoughness dir rghns
                 * (sqrt (1 - V3.z dir * V3.z dir) / V3.z dir))).
  lra.
Qed.

(** X18: with any NDF type other than Beckmann (the GGX branch) [GSmith]
    returns a value in [[0,1]] for every direction, half vector and
    roughness; past the back-facing test the value is positive. *)
Theorem GSmith_GGX_in_unit_interval (NDFBeckmann : uint) (dir h : vec3)
    (rghns : vec2) (ndfType : uint) :
  ndfType <> NDFBeckmann ->
  0 <= GSmith NDFBeckmann dir h rghns ndfType <= 1
  /\ (0 < V3.dot dir h * V3.z dir ->
      0 < GSmith NDFBeckmann dir h rghns ndfType).
Proof.
  intros Hty. split; [now apply GSmith_GGX_range |].
  intros Hfront. unfold GSmith.
  rewrite (Rleb_false _ _ Hfront). cbv zeta.
  destruct (_ <=? 0); [lra |].
  apply N.eqb_neq in Hty. rewrite Hty.
  apply smith_GGX_form_range.
Qed.

Lemma GSmith_GGX_in_unit_interval_witness :
  0 <= GSmith 0%N (v3 0.6 0 0.8) (v3 0 0 1) (v2 1 1) 1%N <= 1.
Proof.
  apply (GSmith_GGX_in_unit_interval 0%N (v3 0.6 0 0.8) (v3 0 0 1) (v2 1 1) 1%N).
  discriminate.
Defined.

(** The rational fit of the Beckmann masking term on [[0, 1.6]]. *)
Lemma smith_Beckmann_fit_range (a : R) :
  0 <= a ->
  0 <= (3.535 * a + 2.181 * (a * a)) / (1 + 2.276 * a + 2.577 * (a * a))
    <= 1.0001.
Proof.
  intros Ha.
  assert (Hden : 1 <= 1 + 2.276 * a + 2.577 * (a * a)) by nra.
  assert (Hinv : 0 < / (1 + 2.276 * a + 2.577 * (a * a)))
    by (apply Rinv_0_lt_compat; lra).
  assert (Hone : (1 + 2.276 * a + 2.577 * (a * a))
                 * / (1 + 2.276 * a + 2.577 * (a * a)) = 1)
    by (apply Rinv_r; lra).
  assert (Hgap : 3.535 * a + 2.181 * (a * a)
                 <= 1.0001 * (1 + 2.276 * a + 2.577 * (a * a))).
  { pose proof (square_nonneg (a - 1.5883)). nra. }
  set (num := 3.535 * a + 2.181 * (a * a)) in *.
  set (den := 1 + 2.276 * a + 2.577 * (a * a)) in *.
  assert (Hnum : 0 <= num) by (unfold num; nra).
  unfold Rdiv. split.
  - apply Rmult_le_pos; lra.
  - apply (Rmult_le_reg_r den); [lra |].
    rewrite Rmult_assoc, (Rmult_comm (/ den)), Hone. lra.
Qed.

(** X19: on the Beckmann branch, for a unit direction above the surface and
    positive roughness components, [GSmith] returns a value in
    [[0, 1.0001]]: the rational fit passes 1 slightly before it is cut off at
    1.6. *)
Theorem GSmith_Beckmann_range_above_surface (NDFBeckmann : uint) (dir h : vec3)
    (rghns : vec2) :
  V3.dot dir dir = 1 -> 0 < V3.z dir ->
  0 < V2.x rghns -> 0 < V2.y rghns ->
  0 <= GSmith NDFBeckmann dir h rghns NDFBeckmann <= 1.0001.
Proof.
  intros Hu Hz Hx Hy. unfold GSmith.
  destruct (_ <=? 0); [lra |]. cbv zeta.
  destruct (Rleb_spec (1 - V3.z dir * V3.z dir) 0) as [Hs | Hs]; [lra |].
  rewrite N.eqb_refl.
  pose proof (effectiveVisibleRoughness_pos dir rghns Hu ltac:(lra) Hx Hy)
    as Halpha.
  set (alpha := effectiveVisibleRoughness dir rghns) in *.
  assert (Hroot : 0 < sqrt (1 - V3.z dir * V3.z dir)) by (apply sqrt_lt_R0; lra).
  assert (Hslope : 0 < alpha * (sqrt (1 - V3.z dir * V3.z dir) / V3.z dir)).
  { apply Rmult_lt_0_compat; [lra |]. now apply Rdiv_lt_0_compat. }
  set (slope := alpha * (sqrt (1 - V3.z dir * V3.z dir) / V3.z dir)) in *.
  assert (Ha : 0 < 1 / slope) by (apply Rdiv_lt_0_compat; lra).
  destruct (1 / slope >? 1.6); [lra |].
  apply smith_Beckmann_fit_range. lra.
Qed.

Lemma GSmith_Beckmann_range_above_surface_witness :
  0 <= GSmith 0%N (v3 0.6 0 0.8) (v3 0 0 1) (v2 1 1) 0%N <= 1.0001.
Proof.
  apply (GSmith_Beckmann_range_above_surface 0%N (v3 0.6 0 0.8) (v3 0 0 1) (v2 1 1));
    vec_compute; lra.
Defined.

(** The bound 1 itself does not hold on the Beckmann branch: where the
    fitted parameter is exactly 1.6 the fit is [35123 / 35121]. *)
Example GSmith_Beckmann_above_one :
  GSmith 0%N (v3 0.6 0 0.8) (v3 0 0 1) (v2 (5 / 6) (5 / 6)) 0%N = 35123 / 35121.
Proof.
  assert (Halpha : effectiveVisibleRoughness (v3 0.6 0 0.8) (v2 (5 / 6) (5 / 6)) = 5 / 6).
  { unfold effectiveVisibleRoughness, effectiveVisibleRoughness_divisor.
    vec_compute. apply sqrt_of_square; lra. }
  unfold GSmith. rewrite Halpha.
  change (V3.z (v3 0.6 0 0.8)) with 0.8.
  rewrite Rleb_false by (vec_compute; lra). cbv zeta.
  rewrite Rleb_false by lra.
  rewrite (sqrt_of_square _ 0.6) by lra.
  change (N.eqb 0 0) with true. cbv iota.
  rewrite Rgtb_false by lra. lra.
Qed.

Lemma effectiveVisibleRoughness_opposite (dir : vec3) (rghns : vec2) :
  effectiveVisibleRoughness (V3.neg dir) rghns
  = effectiveVisibleRoughness dir rghns.
Proof.
  destruct dir as [dx dy dz], rghns as [rx ry].
  unfold effectiveVisibleRoughness, effectiveVisibleRoughness_divisor.
  vec_compute.
  replace (- dz * - dz) with (dz * dz) by ring.
  replace (- dx * - dx) with (dx * dx) by ring.
  replace (- dy * - dy) with (dy * dy) by ring.
  reflexivity.
Qed.

Lemma length_opposite_slope (x : R) : V2.length (v2 1 (- x)) = V2.length (v2 1 x).
Proof. unfold V2.length. vec_compute. f_equal. ring. Qed.

(** X20: on the GGX branch [GSmith] does not change when the direction is
    replaced by its opposite: a direction below the surface is masked like
    its mirror image above. *)
Theorem GSmith_GGX_opposite_direction (NDFBeckmann : uint) (dir h : vec3)
    (rghns : vec2) (ndfType : uint) :
  ndfType <> NDFBeckmann ->
  GSmith NDFBeckmann (V3.neg dir) h rghns ndfType
  = GSmith NDFBeckmann dir h rghns ndfType.
Proof.
  intros Hty. apply N.eqb_neq in Hty. unfold GSmith.
  rewrite effectiveVisibleRoughness_opposite, Hty.
  replace (V3.dot (V3.neg dir) h * V3.z (V3.neg dir))
    with (V3.dot dir h * V3.z dir)
    by (destruct dir, h; vec_compute; ring).
  replace (V3.z (V3.neg dir) * V3.z (V3.neg dir)) with (V3.z dir * V3.z dir)
    by (destruct dir; vec_compute; ring).
  destruct (_ <=? 0); [reflexivity |]. cbv zeta.
  destruct (_ <=? 0); [reflexivity |].
  replace (effectiveVisibleRoughness dir rghns
           * (sqrt (1 - V3.z dir * V3.z dir) / V3.z (V3.neg dir)))
    with (- (effectiveVisibleRoughness dir rghns
             * (sqrt (1 - V3.z dir * V3.z dir) / V3.z dir))).
  - now rewrite length_opposite_slope.
  - destruct dir as [dx dy dz]. vec_compute.
    unfold Rdiv. rewrite Rinv_opp. ring.
Qed.

Lemma GSmith_GGX_opposite_direction_witness :
  GSmith 0%N (V3.neg (v3 0.6 0 0.8)) (v3 0 0 1) (v2 1 1) 1%N
  = GSmith 0%N (v3 0.6 0 0.8) (v3 0 0 1) (v2 1 1) 1%N.
Proof.
  apply (GSmith_GGX_opposite_direction 0%N (v3 0.6 0 0.8) (v3 0 0 1) (v2 1 1) 1%N).
  discriminate.
Defined.

(** X21: the Beckmann branch is not of that kind.  For a direction below the
    surface that passes the back-facing test, once the product of the
    effective roughness and the (negative) slope is at most -0.62, the
    fitted parameter lies in [[-1.62, 0)] and [GSmith] returns a negative
    number. *)
Theorem GSmith_Beckmann_negative_below_surface (NDFBeckmann : uint)
    (dir h : vec3) (rghns : vec2) :
  V3.z dir < 0 -> V3.dot dir h < 0 -> V3.z dir * V3.z dir < 1 ->
  effectiveVisibleRoughness dir rghns
  * (sqrt (1 - V3.z dir * V3.z dir) / V3.z dir) <= - 0.62 ->
  GSmith NDFBeckmann dir h rghns NDFBeckmann < 0.
Proof.
  intros Hz Hd Hs Hslope. unfold GSmith.
  rewrite Rleb_false by nra. cbv zeta.
  rewrite Rleb_false by lra. rewrite N.eqb_refl.
  set (slope := effectiveVisibleRoughness dir rghns
                * (sqrt (1 - V3.z dir * V3.z dir) / V3.z dir)) in *.
  assert (Hinv : / slope < 0) by (apply Rinv_lt_0_compat; lra).
  assert (Hone : slope * / slope = 1) by (apply Rinv_r; lra).
  assert (Ha : - 1.62 <= 1 / slope < 0) by (unfold Rdiv; split; nra).
  set (a := 1 / slope) in *.
  rewrite Rgtb_false by lra.
  assert (Hden : 0 < 1 + 2.276 * a + 2.577 * (a * a)).
  { pose proof (square_nonneg (a + 0.4416)). nra. }
  assert (Hnum : 3.535 * a + 2.181 * (a * a) < 0) by nra.
  unfold Rdiv.
  assert (Hi : 0 < / (1 + 2.276 * a + 2.577 * (a * a)))
    by now apply Rinv_0_lt_compat.
  nra.
Qed.

Lemma GSmith_Beckmann_negative_below_surface_witness :
  GSmith 0%N (v3 0.6 0 (-0.8)) (v3 0 0 1) (v2 1 1) 0%N < 0.
Proof.
  apply (GSmith_Beckmann_negative_below_surface 0%N (v3 0.6 0 (-0.8))
           (v3 0 0 1) (v2 1 1)); try (vec_compute; lra).
  assert (Halpha : effectiveVisibleRoughness (v3 0.6 0 (-0.8)) (v2 1 1) = 1).
  { unfold effectiveVisibleRoughness, effectiveVisibleRoughness_divisor.
    vec_compute. apply sqrt_of_square; lra. }
  rewrite Halpha. change (V3.z (v3 0.6 0 (-0.8))) with (-0.8).
  rewrite (sqrt_of_square _ 0.6) by lra. lra.
Defined.

(** X22: for a unit direction above the surface, facing the half vector,
    and the same roughness [r > 0] on both axes, [GSmith] is the usual Smith
    term of the polar angle: with [tan^2 = (1 - z^2) / z^2], the GGX branch
    returns [2 / (1 + sqrt(1 + r^2 tan^2))], and the Beckmann branch applies
    its cut-off and its fit to [a = z / (r * sqrt(1 - z^2))], that is
    [1 / (r tan)]. *)
Theorem GSmith_isotropic_closed_form (NDFBeckmann : uint) (dir h : vec3)
    (r : R) (ndfType : uint) :
  V3.dot dir dir = 1 -> 0 < V3.z dir -> V3.z dir * V3.z dir < 1 ->
  0 < V3.dot dir h -> 0 < r ->
  let z := V3.z dir in
  let a := z / (r * sqrt (1 - z * z)) in
  let G := GSmith NDFBeckmann dir h (v2 r r) ndfType in
  (ndfType <> NDFBeckmann ->
   G = 2 / (1 + sqrt (1 + r * r * ((1 - z * z) / (z * z)))))
  /\ (ndfType = NDFBeckmann -> 1.6 < a -> G = 1)
  /\ (ndfType = NDFBeckmann -> a <= 1.6 ->
      G = (3.535 * a + 2.181 * (a * a)) / (1 + 2.276 * a + 2.577 * (a * a))).
Proof.
  intros Hu Hz Hs Hd Hr. cbv zeta.
  assert (Hroot : 0 < sqrt (1 - V3.z dir * V3.z dir)) by (apply sqrt_lt_R0; lra).
  assert (Hsq : sqrt (1 - V3.z dir * V3.z dir) * sqrt (1 - V3.z dir * V3.z dir)
                = 1 - V3.z dir * V3.z dir) by (apply sqrt_sqrt; lra).
  unfold GSmith.
  rewrite (effectiveVisibleRoughness_isotropic dir r Hu Hs) by lra.
  rewrite Rleb_false by (apply Rmult_lt_0_compat; assumption). cbv zeta.
  rewrite Rleb_false by lra.
  set (z := V3.z dir) in *. set (q := sqrt (1 - z * z)) in *.
  assert (Ea : 1 / (r * (q / z)) = z / (r * q)) by (field; repeat split; lra).
  repeat split.
  - intros Hty. apply N.eqb_neq in Hty. rewrite Hty.
    unfold V2.length. vec_compute. do 3 f_equal.
    rewrite <- Hsq. field. lra.
  - intros Hty Ha. apply N.eqb_eq in Hty. rewrite Hty, Ea.
    now rewrite Rgtb_true by exact Ha.
  - intros Hty Ha. apply N.eqb_eq in Hty. rewrite Hty, Ea.
    now rewrite Rgtb_false by exact Ha.
Qed.

Lemma GSmith_isotropic_closed_form_witness :
  GSmith 0%N (v3 0.6 0 0.8) (v3 0 0 1) (v2 1 1) 1%N
  = 2 / (1 + sqrt (1 + 1 * 1 * ((1 - 0.8 * 0.8) / (0.8 * 0.8)))).
Proof.
  pose proof (GSmith_isotropic_closed_form 0%N (v3 0.6 0 0.8) (v3 0 0 1) 1 1%N)
    as W.
  cbv zeta in W. change (V3.z (v3 0.6 0 0.8)) with 0.8 in W.
  apply W; try (vec_compute; lra). discriminate.
Defined.

(** X23: [evalMicrofacetTerms] is symmetric in the view and the light
    direction. *)
Theorem evalMicrofacetTerms_symmetric (NDFBeckmann : uint)
    (T B N h V L : vec3) (roughness : vec2) (ndfType : uint)
    (transmissive : bool) :
  evalMicrofacetTerms NDFBeckmann T B N h L V roughness ndfType transmissive
  = evalMicrofacetTerms NDFBeckmann T B N h V L roughness ndfType transmissive.
Proof.
  unfold evalMicrofacetTerms. cbv zeta.
  cbn [V3.z]. rewrite (Rmult_comm (V3.dot N V) (V3.dot N L)).
  destruct (negb transmissive && _); [reflexivity | apply Rmult_comm].
Qed.

(** X24: with any NDF type other than Beckmann, [evalMicrofacetTerms]
    returns a value in [[0,1]], for a reflection and for a transmission. *)
Theorem evalMicrofacetTerms_GGX_in_unit_interval (NDFBeckmann : uint)
    (T B N h V L : vec3) (roughness : vec2) (ndfType : uint)
    (transmissive : bool) :
  ndfType <> NDFBeckmann ->
  0 <= evalMicrofacetTerms NDFBeckmann T B N h V L roughness ndfType transmissive
    <= 1.
Proof.
  intros Hty. unfold evalMicrofacetTerms. cbv zeta.
  destruct (negb transmissive && _); [lra |].
  pose proof (GSmith_GGX_range NDFBeckmann
                (v3 (V3.dot T V) (V3.dot B V) (V3.dot N V)) h roughness ndfType Hty).
  pose proof (GSmith_GGX_range NDFBeckmann
                (v3 (V3.dot T L) (V3.dot B L) (V3.dot N L)) h roughness ndfType Hty).
  split; nra.
Qed.

Lemma evalMicrofacetTerms_GGX_in_unit_interval_witness :
  0 <= evalMicrofacetTerms 0%N (v3 1 0 0) (v3 0 1 0) (v3 0 0 1) (v3 0 0 1)
         (v3 0.6 0 0.8) (v3 (-0.6) 0 0.8) (v2 0.5 0.5) 1%N false <= 1.
Proof.
  apply (evalMicrofacetTerms_GGX_in_unit_interval 0%N). discriminate.
Defined.

(** ** Sampling *)

Lemma mirror_keeps_length (wo n : vec3) :
  V3.dot n n = 1 -> V3.dot (mirror wo n) (mirror wo n) = V3.dot wo wo.
Proof.
  destruct wo as [a b c], n as [nx ny nz]. unfold mirror. vec_compute.
  intros Hn.
  set (d := - a * nx + - b * ny + - c * nz).
  replace ((- a - 2 * d * nx) * (- a - 2 * d * nx)
           + (- b - 2 * d * ny) * (- b - 2 * d * ny)
           + (- c - 2 * d * nz) * (- c - 2 * d * nz))
    with (a * a + b * b + c * c
          + 4 * d * (a * nx + b * ny + c * nz)
          + 4 * d * d * (nx * nx + ny * ny + nz * nz)) by ring.
  rewrite Hn. unfold d. ring.
Qed.

Lemma mirror_sum (wo n : vec3) :
  V3.x (mirror wo n) + V3.x wo = 2 * V3.dot wo n * V3.x n
  /\ V3.y (mirror wo n) + V3.y wo = 2 * V3.dot wo n * V3.y n
  /\ V3.z (mirror wo n) + V3.z wo = 2 * V3.dot wo n * V3.z n.
Proof.
  destruct wo as [a b c], n as [nx ny nz]. unfold mirror. vec_compute.
  repeat split; ring.
Qed.

(** X25: for a first random coordinate in [[0,1)] both samplers return the
    specular reflection of [wo] about the sampled normal: [wi] has the length
    of [wo], makes the same angle with [m], and [wi + wo] is
    [2 * dot(wo, m) * m], so [m] is the half vector of the pair. *)
Theorem sampled_direction_is_reflection (wo : vec3) (roughness rSample : vec2)
    (s : SampleRefs) :
  0 <= V2.x rSample < 1 ->
  let law (r : R * SampleRefs) :=
    V3.dot (wi (snd r)) (wi (snd r)) = V3.dot wo wo
    /\ V3.dot (wi (snd r)) (m (snd r)) = V3.dot wo (m (snd r))
    /\ V3.x (wi (snd r)) + V3.x wo = 2 * V3.dot wo (m (snd r)) * V3.x (m (snd r))
    /\ V3.y (wi (snd r)) + V3.y wo = 2 * V3.dot wo (m (snd r)) * V3.y (m (snd r))
    /\ V3.z (wi (snd r)) + V3.z wo = 2 * V3.dot wo (m (snd r)) * V3.z (m (snd r)) in
  law (sampleBeckmannDistribution wo roughness rSample s)
  /\ law (sampleGGXDistribution wo roughness rSample s).
Proof.
  intros Hu. cbv beta zeta.
  rewrite sampleBeckmannDistribution_m, sampleBeckmannDistribution_wi,
    sampleGGXDistribution_m, sampleGGXDistribution_wi.
  pose proof (beckmannCosThetaM_range roughness rSample Hu) as Hb.
  pose proof (ggxCosThetaM_range roughness rSample Hu) as Hg.
  destruct (microfacetNormal_unit _ rSample Hb) as [Ub _].
  destruct (microfacetNormal_unit _ rSample Hg) as [Ug _].
  split.
  - split; [now apply mirror_keeps_length |].
    split; [now apply mirror_dot_normal | apply mirror_sum].
  - split; [now apply mirror_keeps_length |].
    split; [now apply mirror_dot_normal | apply mirror_sum].
Qed.

Lemma sampled_direction_is_reflection_witness :
  let r := sampleGGXDistribution (v3 (-0.96) 0 0.28) (v2 1 1) (v2 0.36 0) blankRefs in
  V3.dot (wi (snd r)) (wi (snd r)) = V3.dot (v3 (-0.96) 0 0.28) (v3 (-0.96) 0 0.28).
Proof.
  cbv zeta.
  assert (Hu : 0 <= V2.x (v2 0.36 0) < 1) by (vec_compute; lra).
  pose proof (sampled_direction_is_reflection (v3 (-0.96) 0 0.28) (v2 1 1)
                (v2 0.36 0) blankRefs Hu) as W.
  cbv beta zeta in W. destruct W as [_ [W _]]. exact W.
Defined.

Lemma mirror_z (wo n : vec3) :
  V3.z (mirror wo n) = 2 * V3.dot wo n * V3.z n - V3.z wo.
Proof. destruct (mirror_sum wo n) as [_ [_ H]]. lra. Qed.

(** What a sampler returns, given the sampled normal [n], the density [p]
    over half vectors and a value [D >= 0] of the distribution. *)
Lemma sampler_outputs_nonneg (wo n : vec3) (D p : R) :
  0 < V3.z wo -> V3.dot n n = 1 -> 0 < V3.z n -> 0 <= D ->
  let res :=
    if (V3.z (mirror wo n) <=? 0) || (clampPdf p <=? 0)
    then (0, mkRefs n (mirror wo n) (clampPdf p))
    else (D * V3.dot wo n / (clampPdf p * V3.z wo),
          mkRefs n (mirror wo n) (clampPdf p / (4 * V3.dot (mirror wo n) n))) in
  0 <= fst res /\ 0 <= pdf (snd res)
  /\ (0 < V3.z (wi (snd res)) -> 1e-20 <= p -> 0 < pdf (snd res)).
Proof.
  intros Hwo Hn Hnz HD. cbv zeta.
  pose proof (clampPdf_nonneg p) as Hp0.
  destruct (Rleb_spec (V3.z (mirror wo n)) 0) as [Hz | Hz];
    [cbn [orb fst snd pdf wi]; repeat split; try lra; intros Hz' Hp'; lra |].
  destruct (Rleb_spec (clampPdf p) 0) as [Hp | Hp];
    [cbn [orb fst snd pdf wi]; repeat split; try lra; intros Hz' Hp';
     rewrite (clampPdf_above p) in Hp by assumption; lra |].
  cbn [orb fst snd pdf wi].
  assert (Hdot : 0 < V3.dot wo n).
  { rewrite mirror_z in Hz.
    destruct (Rle_lt_dec (V3.dot wo n) 0) as [L | L]; [| exact L].
    assert (2 * V3.dot wo n * V3.z n <= 0) by nra. lra. }
  rewrite (mirror_dot_normal _ _ Hn).
  assert (Hw : 0 <= D * V3.dot wo n / (clampPdf p * V3.z wo)).
  { unfold Rdiv. apply Rmult_le_pos; [apply Rmult_le_pos; lra |].
    apply Rlt_le, Rinv_0_lt_compat, Rmult_lt_0_compat; lra. }
  assert (Hq : 0 < clampPdf p / (4 * V3.dot wo n))
    by (apply Rdiv_lt_0_compat; lra).
  repeat split; lra.
Qed.

(** X28: for a view direction above the surface ([wo.z > 0]), positive
    roughness components and a first random coordinate in [[0,1)], neither
    sampler ever returns a negative weight or leaves a negative [pdf]; on the
    weighted return the [pdf] is positive. *)
Theorem sampler_outputs_never_negative (wo : vec3) (roughness rSample : vec2)
    (s : SampleRefs) :
  0 < V3.z wo -> 0 < V2.x roughness -> 0 < V2.y roughness ->
  0 <= V2.x rSample < 1 ->
  let rb := sampleBeckmannDistribution wo roughness rSample s in
  let rg := sampleGGXDistribution wo roughness rSample s in
  (0 <= fst rb /\ 0 <= pdf (snd rb)
   /\ (0 < V3.z (wi (snd rb)) -> 1e-20 <= beckmannPdfH roughness rSample ->
       0 < pdf (snd rb)))
  /\ (0 <= fst rg /\ 0 <= pdf (snd rg)
      /\ (0 < V3.z (wi (snd rg)) -> 1e-20 <= ggxPdfH roughness rSample ->
          0 < pdf (snd rg))).
Proof.
  intros Hwo Hx Hy Hu. cbv zeta.
  pose proof (beckmannCosThetaM_range roughness rSample Hu) as Hb.
  pose proof (ggxCosThetaM_range roughness rSample Hu) as Hg.
  destruct (microfacetNormal_unit _ rSample Hb) as [Ub Zb].
  destruct (microfacetNormal_unit _ rSample Hg) as [Ug Zg].
  rewrite sampleBeckmannDistribution_eq, sampleGGXDistribution_eq. cbv zeta.
  split.
  - apply sampler_outputs_nonneg; try assumption; [rewrite Zb; apply Hb |].
    apply Rlt_le, anisotropic_Beckmann_pos; try assumption. rewrite Zb. lra.
  - apply sampler_outputs_nonneg; try assumption; [rewrite Zg; apply Hg |].
    apply Rlt_le, anisotropic_GGX_pos; try assumption. rewrite Zg. lra.
Qed.

Lemma sampler_outputs_never_negative_witness :
  0 <= fst (sampleGGXDistribution (v3 (-0.96) 0 0.28) (v2 1 1) (v2 0.36 0) blankRefs)
  /\ 0 <= pdf (snd (sampleBeckmannDistribution (v3 0 0 1) (v2 0.5 0.25) (v2 0.5 0)
                      blankRefs)).
Proof.
  pose proof (sampler_outputs_never_negative (v3 (-0.96) 0 0.28) (v2 1 1)
                (v2 0.36 0) blankRefs) as W1.
  pose proof (sampler_outputs_never_negative (v3 0 0 1) (v2 0.5 0.25)
                (v2 0.5 0) blankRefs) as W2.
  cbv zeta in W1, W2. split.
  - apply W1; vec_compute; lra.
  - apply W2; vec_compute; lra.
Defined.

Lemma cos_of_tan_sqr_monotone (t1 t2 : R) :
  0 <= t1 <= t2 -> 1 / sqrt (1 + t2) <= 1 / sqrt (1 + t1).
Proof.
  intros Ht.
  assert (H1 : 0 < sqrt (1 + t1)) by (apply sqrt_lt_R0; lra).
  assert (H12 : sqrt (1 + t1) <= sqrt (1 + t2)) by (apply sqrt_le_1_alt; lra).
  unfold Rdiv. rewrite !Rmult_1_l.
  apply Rinv_le_contravar; assumption.
Qed.

(** X29: the cosine [m.z] of the sampled normal never increases as the first
    random coordinate grows over [[0,1)], in both samplers and whatever the
    other inputs are: a larger random number never gives a normal closer to
    the surface normal. *)
Theorem sampled_cosine_never_increases (wo wo' : vec3) (roughness : vec2)
    (u1 u2 v1 v2' : R) (s s' : SampleRefs) :
  0 <= u1 <= u2 -> u2 < 1 ->
  V3.z (m (snd (sampleBeckmannDistribution wo' roughness (v2 u2 v2') s')))
  <= V3.z (m (snd (sampleBeckmannDistribution wo roughness (v2 u1 v1) s)))
  /\ V3.z (m (snd (sampleGGXDistribution wo' roughness (v2 u2 v2') s')))
     <= V3.z (m (snd (sampleGGXDistribution wo roughness (v2 u1 v1) s))).
Proof.
  intros Hu H2.
  rewrite !sampleBeckmannDistribution_m, !sampleGGXDistribution_m.
  unfold microfacetNormal, beckmannCosThetaM, ggxCosThetaM, log.
  cbn [V3.z V2.x V2.y].
  pose proof (square_nonneg (V2.x roughness)) as Hxx.
  set (a2 := V2.x roughness * V2.x roughness) in *.
  split; apply cos_of_tan_sqr_monotone.
  - assert (Hl1 : ln (1 - u1) <= 0).
    { destruct (Req_dec u1 0) as [E | E].
      - rewrite E. replace (1 - 0) with 1 by lra. rewrite ln_1. lra.
      - left. rewrite <- ln_1. apply ln_increasing; lra. }
    assert (Hl : ln (1 - u2) <= ln (1 - u1)).
    { destruct (Req_dec u1 u2) as [E | E]; [rewrite E; lra |].
      left. apply ln_increasing; lra. }
    split; nra.
  - assert (Hi1 : 0 < / (1 - u1)) by (apply Rinv_0_lt_compat; lra).
    assert (Hi2 : / (1 - u1) <= / (1 - u2))
      by (apply Rinv_le_contravar; lra).
    assert (Hq : 0 <= u1 * / (1 - u1) <= u2 * / (1 - u2)) by (split; nra).
    unfold Rdiv. rewrite !(Rmult_assoc a2). split; nra.
Qed.

Lemma sampled_cosine_never_increases_witness :
  V3.z (m (snd (sampleGGXDistribution (v3 0 0 1) (v2 1 1) (v2 0.36 0) blankRefs)))
  <= V3.z (m (snd (sampleGGXDistribution (v3 0 0 1) (v2 1 1) (v2 0 0) blankRefs))).
Proof.
  apply (sampled_cosine_never_increases (v3 0 0 1) (v3 0 0 1) (v2 1 1) 0 0.36 0 0
           blankRefs blankRefs); lra.
Defined.

(** With the first random coordinate at 0 both samplers draw the surface
    normal itself, whatever the roughness and the second coordinate, and [wi]
    is the mirror image of [wo] in the tangent plane. *)
Lemma sample_at_zero_is_surface_normal (wo : vec3) (roughness : vec2)
    (uy : R) (s : SampleRefs) :
  let rb := sampleBeckmannDistribution wo roughness (v2 0 uy) s in
  let rg := sampleGGXDistribution wo roughness (v2 0 uy) s in
  let mirrored := v3 (- V3.x wo) (- V3.y wo) (V3.z wo) in
  (m (snd rb) = v3 0 0 1 /\ wi (snd rb) = mirrored)
  /\ (m (snd rg) = v3 0 0 1 /\ wi (snd rg) = mirrored).
Proof.
  cbv zeta.
  rewrite sampleBeckmannDistribution_m, sampleBeckmannDistribution_wi,
    sampleGGXDistribution_m, sampleGGXDistribution_wi.
  rewrite beckmannCosThetaM_at_0, ggxCosThetaM_at_0, microfacetNormal_cos_1.
  assert (E : mirror wo (v3 0 0 1) = v3 (- V3.x wo) (- V3.y wo) (V3.z wo)).
  { destruct wo as [a b c]. unfold mirror. vec_compute. f_equal; ring. }
  rewrite E. repeat split; reflexivity.
Qed.
